(** * RaftLib [packages/utility.hpp]: [range], [sum] and [mult]

    A shallow embedding of the three function templates of
    [raft::utility.hpp] and the properties stated about them.

    - [range] is embedded at the instantiations [A = B = int] and
      [A = B = unsigned int] (32 bits), where the common type is the type
      itself and [std::islessequal] / [std::isgreaterequal], which compare
      after a conversion to [double], are exact. Signed overflow, division
      by zero and a store outside the vector are undefined behaviour: a
      call that meets one has no value.
    - [sum] and [mult] are embedded over a list of port handles; the result
      type is any type with the arithmetic the templates use. *)

From stdpp Require Import base option list gmap.
From Stdlib Require Import ZArith Lia.

Local Open Scope Z_scope.

(** ** Outcomes of a call *)

(** What can keep a call from returning a value. *)
Inductive fault : Type :=
  | signed_overflow    (* overflow of a signed operation: undefined in C++ *)
  | division_by_zero   (* integer division by zero: undefined in C++ *)
  | out_of_bounds      (* store outside the vector: undefined in C++ *)
  | length_error       (* std::vector refuses a size above max_size() *)
  | would_block        (* pop on a FIFO that holds nothing *)
  | out_of_fuel.       (* the iteration bound of the model was reached *)

Inductive result (A : Type) : Type :=
  | Ok (a : A)
  | Err (e : fault).
Arguments Ok {A} a.
Arguments Err {A} e.

#[global] Instance result_ret : MRet result := fun A a => Ok a.
#[global] Instance result_bind : MBind result := fun A B f m =>
  match m with
  | Ok a => f a
  | Err e => Err e
  end.
#[global] Instance result_fmap : FMap result := fun A B f m =>
  match m with
  | Ok a => Ok (f a)
  | Err e => Err e
  end.

(** ** The 32-bit integer types [int] and [unsigned int] *)

Inductive kind : Type := Signed | Unsigned.

Definition min_val (k : kind) : Z :=
  match k with
  | Signed => -2147483648
  | Unsigned => 0
  end.

Definition max_val (k : kind) : Z :=
  match k with
  | Signed => 2147483647
  | Unsigned => 4294967295
  end.

Definition fits (k : kind) (z : Z) : bool :=
  (min_val k <=? z) && (z <=? max_val k).

Definition representable (k : kind) (z : Z) : Prop :=
  min_val k <= z <= max_val k.

(** The value of an operation whose mathematical result is [z]: unsigned
    arithmetic is modulo 2^32, signed arithmetic has no value outside the
    type. *)
Definition value_in (k : kind) (z : Z) : result Z :=
  match k with
  | Unsigned => Ok (z mod 4294967296)
  | Signed => if fits Signed z then Ok z else Err signed_overflow
  end.

Definition add (k : kind) (x y : Z) : result Z := value_in k (x + y).
Definition sub (k : kind) (x y : Z) : result Z := value_in k (x - y).
Definition mul (k : kind) (x y : Z) : result Z := value_in k (x * y).

(** Integer division truncates towards zero. *)
Definition div (k : kind) (x y : Z) : result Z :=
  if y =? 0 then Err division_by_zero else value_in k (Z.quot x y).

(** ** Loops *)

Section Iteration.
Context {St R : Type}.
(** One turn of a loop: [inl] carries on with a new state, [inr] leaves
    the loop with its outcome. *)
Variable turn : St -> St + R.

(** At most [n] turns. *)
Fixpoint iter_nat (n : nat) (s : St) : St + R :=
  match n with
  | O => inl s
  | S n' =>
      match turn s with
      | inl s' => iter_nat n' s'
      | inr r => inr r
      end
  end.

(** At most [p] turns, by doubling, so that a bound such as 2^32 costs
    nothing when the loop leaves early. *)
Fixpoint iter_pos (p : positive) (s : St) : St + R :=
  match p with
  | xH => turn s
  | xO p' =>
      match iter_pos p' s with
      | inl s' => iter_pos p' s'
      | inr r => inr r
      end
  | xI p' =>
      match turn s with
      | inl s1 =>
          match iter_pos p' s1 with
          | inl s2 => iter_pos p' s2
          | inr r => inr r
          end
      | inr r => inr r
      end
  end.
End Iteration.

(** The loop's [int index] overflows after 2^31 increments, so no loop of
    [range] makes 2^32 turns. *)
Definition fuel : positive := 4294967296.

Section ForLoop.
Context {St : Type}.
Variables (cond : St -> result bool) (body incr : St -> result St).

(** [for ( ; cond; incr ) body]: test, body, increment. *)
Definition for_turn (s : St) : St + result St :=
  match cond s with
  | Err e => inr (Err e)
  | Ok false => inr (Ok s)
  | Ok true =>
      match body s ≫= incr with
      | Ok s' => inl s'
      | Err e => inr (Err e)
      end
  end.

Definition for_loop (s : St) : result St :=
  match iter_pos for_turn fuel s with
  | inr r => r
  | inl _ => Err out_of_fuel
  end.
End ForLoop.

(** ** [range] *)

Module Range.

(** The variables of the fill loop: the counter [i], the [index], the
    vector [out], and [stray], a log of the stores [out[index] = i] made
    with [index] outside the vector, oldest first. The log is only filled
    by [store], which serves to tell where such stores go; the call
    itself, [range], has no value once a store leaves the vector. *)
Record fill : Type := Fill {
  i : Z;
  index : Z;
  out : list Z;
  stray : list (Z * Z)
}.

(** [std::vector< T > out( cap )]: [cap] value-initialised elements. A
    negative [cap] converts to a [size_t] above [max_size()]. *)
Definition vector (cap : Z) : result (list Z) :=
  if cap <? 0 then Err length_error
  else Ok (replicate (Z.to_nat cap) 0).

(** [out[ index ] = i], as the call has it: a store outside the vector is
    undefined behaviour. *)
Definition store_checked (s : fill) : result fill :=
  if (0 <=? index s) && (index s <? Z.of_nat (length (out s))) then
    Ok (Fill (i s) (index s) (<[Z.to_nat (index s) := i s]> (out s)) (stray s))
  else
    Err out_of_bounds.

(** [out[ index ] = i], logged: a store outside the vector is entered in
    [stray] and the run goes on, so that every such store of a run can be
    told. A run with an entry in [stray] is a call without a value. *)
Definition store (s : fill) : fill :=
  if (0 <=? index s) && (index s <? Z.of_nat (length (out s))) then
    Fill (i s) (index s) (<[Z.to_nat (index s) := i s]> (out s)) (stray s)
  else
    Fill (i s) (index s) (out s) (stray s ++ [(index s, i s)]).

(** [i += delta, index++] and [i -= delta, index++] *)
Definition step_up (k : kind) (delta : Z) (s : fill) : result fill :=
  i' ← add k (i s) delta;
  index' ← add Signed (index s) 1;
  mret (Fill i' index' (out s) (stray s)).

Definition step_down (k : kind) (delta : Z) (s : fill) : result fill :=
  i' ← sub k (i s) delta;
  index' ← add Signed (index s) 1;
  mret (Fill i' index' (out s) (stray s)).

(** The branch taken when [a < b], with [body] for the store
    [out[ index ] = i]. *)
Definition range_ascending_by (body : fill -> result fill)
    (k : kind) (a b delta : Z) : result fill :=
  d ← sub k b a;
  n ← add k d delta;
  cap ← div k n delta;
  out ← vector cap;
  for_loop (fun s => lim ← add k b delta; mret (i s <=? lim))
           body
           (step_up k delta)
           (Fill a 0 out []).

(** The branch taken otherwise. *)
Definition range_descending_by (body : fill -> result fill)
    (k : kind) (a b delta : Z) : result fill :=
  d ← sub k a b;
  n ← add k d delta;
  cap ← div k n delta;
  out ← vector cap;
  for_loop (fun s => lim ← sub k b delta; mret (i s >=? lim))
           body
           (step_down k delta)
           (Fill a 0 out []).

(** [range] at [A = B =] the type [k]: what the call returns, the vector
    [out]. *)
Definition range (k : kind) (a b delta : Z) : result (list Z) :=
  out <$> (if a <? b then range_ascending_by store_checked k a b delta
           else range_descending_by store_checked k a b delta).

(** The call with two arguments: [delta] defaults to 1. *)
Definition range_default (k : kind) (a b : Z) : result (list Z) :=
  range k a b 1.

(** The same body with the stores logged: the final state of the fill
    loop, with the stores that left the vector in [stray]. *)
Definition range_ascending (k : kind) (a b delta : Z) : result fill :=
  range_ascending_by (fun s => mret (store s)) k a b delta.

Definition range_descending (k : kind) (a b delta : Z) : result fill :=
  range_descending_by (fun s => mret (store s)) k a b delta.

Definition range_run (k : kind) (a b delta : Z) : result fill :=
  if a <? b then range_ascending k a b delta
  else range_descending k a b delta.

(** The capacity the vector is allocated with. *)
Definition capacity (a b delta : Z) : Z :=
  if a <? b then Z.quot (b - a + delta) delta
  else Z.quot (a - b + delta) delta.

End Range.

Import Range.

(** ** The contract of [range] *)

(** [ramp a d n] is [a, a + d, ..., a + (n-1) d]. *)
Definition ramp (a d : Z) (n : nat) : list Z :=
  (fun j : nat => a + Z.of_nat j * d) <$> seq 0 n.

(** The number of elements: [floor(n / d) + 1]. *)
Definition count (n d : Z) : nat := Z.to_nat (n / d + 1).

(** The ascending contract: [floor((b-a)/delta) + 1] elements, each the
    one before plus [delta] and so larger, the first one [a], the last one
    at most [b]. *)
Definition ascending_claim (a b delta : Z) (v : list Z) : Prop :=
  Z.of_nat (length v) = (b - a) / delta + 1 /\
  (forall (j : nat) x y, v !! j = Some x -> v !! S j = Some y ->
     x < y /\ y - x = delta) /\
  head v = Some a /\
  (exists z, last v = Some z /\ z <= b).

(** The descending contract: each element smaller than the one before, the
    first one [a], the last one at least [b]. *)
Definition descending_claim (a b : Z) (v : list Z) : Prop :=
  (forall (j : nat) x y, v !! j = Some x -> v !! S j = Some y -> y < x) /\
  head v = Some a /\
  (exists z, last v = Some z /\ b <= z).

(** ** [sum] and [mult] *)

Module Fold.

(** The result type [RETTYPE]: what the templates use of an arithmetic
    type. [cast] is [static_cast< RETTYPE >] of an [int] literal. *)
Class Arithmetic (R : Type) : Type := {
  cast : Z -> R;
  plus : R -> R -> result R;
  times : R -> R -> result R
}.

(** [int] and [unsigned int] as result types. *)
Definition integer (k : kind) : Type := Z.

Definition convert (k : kind) (z : Z) : Z :=
  match k with
  | Unsigned => z mod 4294967296
  | Signed => (z + 2147483648) mod 4294967296 - 2147483648
  end.

#[global] Instance integer_arithmetic (k : kind) : Arithmetic (integer k) := {
  cast := convert k;
  plus := add k;
  times := mul k
}.

(** Modelled from the spec: the ports, which belong to the surrounding
    framework. A port is a FIFO-like object from which [pop] extracts a
    single value into its output parameter. Ports are handles into
    [fifos]; [calls] lists the ports whose [pop] was invoked, oldest
    first. A [pop] on a FIFO that holds nothing does not return. *)
Record world (R : Type) : Type := World {
  fifos : gmap nat (list R);
  calls : list nat
}.
Arguments World {R} fifos calls.
Arguments fifos {R} w.
Arguments calls {R} w.

(** Modelled from the spec: [port.pop( val )], the single-element
    extraction of a port. It takes the head of the port's FIFO, yields it
    in [val] and logs the call. *)
Definition pop {R : Type} (port : nat) (w : world R) : result (R * world R) :=
  match fifos w !! port with
  | Some (val :: rest) =>
      Ok (val, World (<[port := rest]> (fifos w)) (calls w ++ [port]))
  | _ => Err would_block
  end.

Section Helpers.
Context {R : Type} `{Arithmetic R}.

(** [sum_helper< RETTYPE, PORTS... >::sum], by recursion on the pack:
    [port.pop( val )], then [val + sum_helper< RETTYPE, PORTS... >::sum]. *)
Fixpoint sum_helper (ports : list nat) (w : world R) : result (R * world R) :=
  match ports with
  | [] => mret (cast 0, w)
  | port :: ports =>
      '(val, w) ← pop port w;
      '(rest, w) ← sum_helper ports w;
      r ← plus val rest;
      mret (r, w)
  end.

Definition sum (ports : list nat) (w : world R) : result (R * world R) :=
  sum_helper ports w.

(** [mult_helper< RETTYPE, PORTS... >::mult] *)
Fixpoint mult_helper (ports : list nat) (w : world R) : result (R * world R) :=
  match ports with
  | [] => mret (cast 1, w)
  | port :: ports =>
      '(val, w) ← pop port w;
      '(rest, w) ← mult_helper ports w;
      r ← times val rest;
      mret (r, w)
  end.

Definition mult (ports : list nat) (w : world R) : result (R * world R) :=
  mult_helper ports w.
End Helpers.

End Fold.

Import Fold.

(** The values a call pops, in order, and the FIFOs it leaves; [None] when
    a [pop] finds nothing. *)
Fixpoint heads {R : Type} (ports : list nat) (m : gmap nat (list R))
  : option (list R * gmap nat (list R)) :=
  match ports with
  | [] => Some ([], m)
  | port :: ports =>
      match m !! port with
      | Some (val :: rest) =>
          '(vals, m') ← heads ports (<[port := rest]> m);
          Some (val :: vals, m')
      | _ => None
      end
  end.

(** [v1 op (v2 op (... op (vn op unit)))] *)
Fixpoint fold_vals {R : Type} (op : R -> R -> result R) (unit : R) (vals : list R)
  : result R :=
  match vals with
  | [] => Ok unit
  | val :: vals => rest ← fold_vals op unit vals; op val rest
  end.

(** What a caller sees of a call: the value and the FIFOs. *)
Definition observe {R : Type} (r : result (R * world R))
  : result (R * gmap nat (list R)) :=
  (fun p => (p.1, fifos p.2)) <$> r.

(** Arithmetic whose operations always have a value and are associative
    and commutative. *)
Class ExactArithmetic (R : Type) `{Arithmetic R} : Type := {
  exact_plus : R -> R -> R;
  exact_times : R -> R -> R;
  plus_exact x y : plus x y = Ok (exact_plus x y);
  times_exact x y : times x y = Ok (exact_times x y);
  exact_plus_comm : Comm (=) exact_plus;
  exact_plus_assoc : Assoc (=) exact_plus;
  exact_times_comm : Comm (=) exact_times;
  exact_times_assoc : Assoc (=) exact_times
}.

(** Either of the two folds. *)
Inductive fold_op : Type := Sum | Mult.

Definition fold_call {R : Type} `{Arithmetic R} (f : fold_op)
  : list nat -> world R -> result (R * world R) :=
  match f with
  | Sum => sum
  | Mult => mult
  end.

(** * Proofs *)

(** ** Facts about the integer types *)

Lemma fits_representable k z : fits k z = true <-> representable k z.
Proof. unfold fits, representable. rewrite andb_true_iff, !Z.leb_le. tauto. Qed.

Lemma value_in_representable k z : representable k z -> value_in k z = Ok z.
Proof.
  intros Hz. destruct k; simpl.
  - apply fits_representable in Hz. unfold fits in *; simpl in *. now rewrite Hz.
  - unfold representable in Hz; simpl in Hz. now rewrite Z.mod_small by lia.
Qed.

(** ** Facts about loops *)

Section IterationFacts.
Context {St R : Type} (turn : St -> St + R).

Lemma iter_nat_add n m s :
  iter_nat turn (n + m) s =
  match iter_nat turn n s with
  | inl s' => iter_nat turn m s'
  | inr r => inr r
  end.
Proof.
  revert s. induction n as [|n IH]; intros s; simpl; [done|].
  destruct (turn s); [apply IH | done].
Qed.

Lemma iter_nat_succ_r n s :
  iter_nat turn (S n) s =
  match iter_nat turn n s with
  | inl s' => turn s'
  | inr r => inr r
  end.
Proof.
  replace (S n) with (n + 1)%nat by lia. rewrite iter_nat_add.
  destruct (iter_nat turn n s); [simpl|done]. now destruct (turn _).
Qed.

Lemma iter_nat_left n m s r :
  iter_nat turn n s = inr r -> (n <= m)%nat -> iter_nat turn m s = inr r.
Proof.
  intros Hn Hle. replace m with (n + (m - n))%nat by lia.
  now rewrite iter_nat_add, Hn.
Qed.

Lemma iter_pos_nat p s : iter_pos turn p s = iter_nat turn (Pos.to_nat p) s.
Proof.
  revert s. induction p as [p IH|p IH|]; intros s; cbn [iter_pos].
  - rewrite Pos2Nat.inj_xI.
    replace (S (2 * Pos.to_nat p))
      with (1 + (Pos.to_nat p + Pos.to_nat p))%nat by lia.
    rewrite iter_nat_add. cbn [iter_nat]. destruct (turn s) as [s1|]; [|done].
    rewrite iter_nat_add, <- IH. destruct (iter_pos turn p s1); [apply IH|done].
  - rewrite Pos2Nat.inj_xO.
    replace (2 * Pos.to_nat p)%nat with (Pos.to_nat p + Pos.to_nat p)%nat by lia.
    rewrite iter_nat_add, <- IH. destruct (iter_pos turn p s); [apply IH|done].
  - change (Pos.to_nat 1) with 1%nat. cbn [iter_nat]. now destruct (turn s).
Qed.
End IterationFacts.

Lemma for_loop_turns {St : Type} (cond : St -> result bool)
    (body incr : St -> result St) n s r :
  iter_nat (for_turn cond body incr) n s = inr r ->
  (Z.of_nat n <= 4294967296) ->
  for_loop cond body incr s = r.
Proof.
  intros Hn Hle. unfold for_loop. rewrite iter_pos_nat.
  rewrite (iter_nat_left _ n _ s r); [done|done|].
  unfold fuel. lia.
Qed.

(** ** The fill loop *)

Lemma length_ramp a d n : length (ramp a d n) = n.
Proof. unfold ramp. now rewrite length_fmap, length_seq. Qed.

Lemma ramp_succ a d n : ramp a d (S n) = ramp a d n ++ [a + Z.of_nat n * d].
Proof. unfold ramp. now rewrite seq_S, fmap_app. Qed.

Lemma lookup_ramp a d n (j : nat) :
  (j < n)%nat -> ramp a d n !! j = Some (a + Z.of_nat j * d).
Proof.
  intros Hj. unfold ramp. rewrite list_lookup_fmap, lookup_seq_lt by done.
  done.
Qed.

Lemma lookup_ramp_inv a d n (j : nat) x :
  ramp a d n !! j = Some x -> (j < n)%nat /\ x = a + Z.of_nat j * d.
Proof.
  intros Hx. assert (j < n)%nat as Hj.
  { apply lookup_lt_Some in Hx. now rewrite length_ramp in Hx. }
  rewrite lookup_ramp in Hx by done. split; congruence.
Qed.

(** A store below the size of the vector fills the next free element. *)
Lemma store_inside x (j m : nat) a d st :
  store (Fill x (Z.of_nat j) (ramp a d j ++ replicate (S m) 0) st) =
  Fill x (Z.of_nat j) (ramp a d j ++ x :: replicate m 0) st.
Proof.
  unfold store; simpl.
  rewrite length_app, length_ramp. simpl. rewrite length_replicate.
  replace (0 <=? Z.of_nat j) with true by (symmetry; apply Z.leb_le; lia).
  replace (Z.of_nat j <? Z.of_nat (j + S m)) with true
    by (symmetry; apply Z.ltb_lt; lia).
  simpl. rewrite Nat2Z.id.
  rewrite insert_app_r_alt by (rewrite length_ramp; lia).
  rewrite length_ramp, Nat.sub_diag. done.
Qed.

(** A store at the size of the vector is a stray one. *)
Lemma store_outside x (n : nat) v st :
  length v = n ->
  store (Fill x (Z.of_nat n) v st) = Fill x (Z.of_nat n) v (st ++ [(Z.of_nat n, x)]).
Proof.
  intros Hv. unfold store; simpl. rewrite Hv.
  now rewrite Z.ltb_irrefl, andb_false_r.
Qed.

Section FillLoop.
(** A fill loop that starts at [a], moves by [d] and whose test holds for
    the first [cap + 1] values of the counter and fails for the next. *)
Variables (cond : fill -> result bool) (incr : fill -> result fill).
Variables (a d : Z) (cap : nat).

Hypothesis cond_holds : forall s (j : nat),
  (j <= cap)%nat -> i s = a + Z.of_nat j * d -> cond s = Ok true.
Hypothesis cond_fails : forall s,
  i s = a + Z.of_nat (S cap) * d -> cond s = Ok false.
Hypothesis incr_moves : forall s (j : nat),
  (j <= cap)%nat -> i s = a + Z.of_nat j * d -> index s = Z.of_nat j ->
  incr s = Ok (Fill (a + Z.of_nat (S j) * d) (Z.of_nat (S j)) (out s) (stray s)).
Hypothesis cap_small : Z.of_nat cap < 2147483647.

Let turn := for_turn cond (fun s => mret (store s)) incr.

(** After [j <= cap] turns the first [j] elements are written. *)
Lemma fill_prefix (j : nat) :
  (j <= cap)%nat ->
  iter_nat turn j (Fill a 0 (replicate cap 0) []) =
  inl (Fill (a + Z.of_nat j * d) (Z.of_nat j)
            (ramp a d j ++ replicate (cap - j) 0) []).
Proof.
  induction j as [|j IH]; intros Hj.
  - simpl. rewrite Nat.sub_0_r. do 2 f_equal. lia.
  - rewrite iter_nat_succ_r, IH by lia.
    unfold turn, for_turn.
    rewrite (cond_holds _ j) by (simpl; lia).
    replace (cap - j)%nat with (S (cap - S j)) by lia.
    cbn [mbind result_bind mret result_ret].
    rewrite store_inside.
    rewrite (incr_moves _ j) by (simpl; lia). simpl out. simpl stray.
    rewrite ramp_succ, <- app_assoc. done.
Qed.

(** The loop makes [cap + 1] turns: [cap] stores fill the vector and the
    last one is stray. *)
Lemma fill_loop :
  for_loop cond (fun s => mret (store s)) incr (Fill a 0 (replicate cap 0) []) =
  Ok (Fill (a + Z.of_nat (S cap) * d) (Z.of_nat (S cap))
           (ramp a d cap) [(Z.of_nat cap, a + Z.of_nat cap * d)]).
Proof.
  apply (for_loop_turns _ _ _ (S (S cap))); [|lia].
  rewrite iter_nat_succ_r, iter_nat_succ_r, fill_prefix by lia.
  rewrite Nat.sub_diag, app_nil_r.
  unfold for_turn at 1.
  rewrite (cond_holds _ cap) by (simpl; lia).
  cbn [mbind result_bind mret result_ret].
  rewrite store_outside by apply length_ramp.
  rewrite (incr_moves _ cap) by (simpl; lia). simpl out. simpl stray.
  unfold for_turn. rewrite cond_fails by done. done.
Qed.
End FillLoop.

(** ** The two branches of [range] on inputs that stay inside the type *)

Lemma div_bounds (n d : Z) :
  0 <= n -> 0 < d -> 0 <= n / d /\ d * (n / d) <= n < d * (n / d + 1).
Proof.
  intros Hn Hd. split; [apply Z.div_pos; lia|].
  pose proof (Z.mul_div_le n d Hd). pose proof (Z.mul_succ_div_gt n d Hd). lia.
Qed.

Lemma quot_count (n d : Z) :
  0 <= n -> 0 < d -> Z.quot (n + d) d = n / d + 1.
Proof.
  intros Hn Hd. rewrite Z.quot_div_nonneg by lia.
  replace (n + d) with (n + 1 * d) by lia. now rewrite Z.div_add by lia.
Qed.

Ltac in_type :=
  match goal with
  | k : kind |- representable ?k' _ =>
      unfold representable in *; destruct k; simpl in *; nia
  | |- representable _ _ => unfold representable in *; simpl in *; nia
  end.

Lemma range_ascending_run k a b delta :
  representable k a -> representable k b -> representable k delta ->
  a < b -> 0 < delta ->
  b + 2 * delta <= max_val k ->
  b - a + delta < 2147483647 ->
  let cap := count (b - a) delta in
  range_ascending k a b delta =
  Ok (Fill (a + Z.of_nat (S cap) * delta) (Z.of_nat (S cap))
           (ramp a delta cap) [(Z.of_nat cap, a + Z.of_nat cap * delta)]).
Proof.
  intros Ha Hb Hd Hab Hpos Hmax Hcnt cap.
  destruct (div_bounds (b - a) delta) as [Hq0 Hq]; [lia|lia|].
  assert (Z.of_nat cap = (b - a) / delta + 1) as Hcap by (unfold cap, count; lia).
  set (q := (b - a) / delta) in *.
  unfold range_ascending, range_ascending_by, sub, add, div.
  rewrite (value_in_representable k (b - a)) by in_type.
  cbn [mbind result_bind].
  rewrite (value_in_representable k (b - a + delta)) by in_type.
  cbn [mbind result_bind].
  replace (delta =? 0) with false by (symmetry; apply Z.eqb_neq; lia).
  rewrite quot_count by lia. fold q.
  rewrite (value_in_representable k (q + 1)) by in_type.
  cbn [mbind result_bind]. unfold vector.
  replace (q + 1 <? 0) with false by (symmetry; apply Z.ltb_ge; lia).
  cbn [mbind result_bind]. fold (count (b - a) delta). fold cap.
  apply fill_loop.
  - intros s j Hj Hi.
    rewrite (value_in_representable k (b + delta)) by in_type.
    cbn [mbind result_bind mret result_ret]. f_equal. apply Z.leb_le. nia.
  - intros s Hi.
    rewrite (value_in_representable k (b + delta)) by in_type.
    cbn [mbind result_bind mret result_ret]. f_equal. apply Z.leb_gt. nia.
  - intros s j Hj Hi Hx. unfold step_up, add. rewrite Hi, Hx.
    rewrite (value_in_representable k (a + Z.of_nat j * delta + delta)) by in_type.
    cbn [mbind result_bind].
    rewrite (value_in_representable Signed (Z.of_nat j + 1)) by in_type.
    cbn [mbind result_bind mret result_ret]. do 2 f_equal; lia.
  - nia.
Qed.

Lemma range_descending_run k a b delta :
  representable k a -> representable k b -> representable k delta ->
  b <= a -> 0 < delta ->
  min_val k <= b - 2 * delta ->
  a - b + delta < 2147483647 ->
  let cap := count (a - b) delta in
  range_descending k a b delta =
  Ok (Fill (a + Z.of_nat (S cap) * - delta) (Z.of_nat (S cap))
           (ramp a (- delta) cap) [(Z.of_nat cap, a + Z.of_nat cap * - delta)]).
Proof.
  intros Ha Hb Hd Hab Hpos Hmin Hcnt cap.
  destruct (div_bounds (a - b) delta) as [Hq0 Hq]; [lia|lia|].
  assert (Z.of_nat cap = (a - b) / delta + 1) as Hcap by (unfold cap, count; lia).
  set (q := (a - b) / delta) in *.
  unfold range_descending, range_descending_by, sub, add, div.
  rewrite (value_in_representable k (a - b)) by in_type.
  cbn [mbind result_bind].
  rewrite (value_in_representable k (a - b + delta)) by in_type.
  cbn [mbind result_bind].
  replace (delta =? 0) with false by (symmetry; apply Z.eqb_neq; lia).
  rewrite quot_count by lia. fold q.
  rewrite (value_in_representable k (q + 1)) by in_type.
  cbn [mbind result_bind]. unfold vector.
  replace (q + 1 <? 0) with false by (symmetry; apply Z.ltb_ge; lia).
  cbn [mbind result_bind]. fold (count (a - b) delta). fold cap.
  apply fill_loop.
  - intros s j Hj Hi.
    rewrite (value_in_representable k (b - delta)) by in_type.
    cbn [mbind result_bind mret result_ret]. f_equal. apply Z.geb_le. nia.
  - intros s Hi.
    rewrite (value_in_representable k (b - delta)) by in_type.
    cbn [mbind result_bind mret result_ret]. f_equal.
    rewrite Z.geb_leb. apply Z.leb_gt. nia.
  - intros s j Hj Hi Hx. unfold step_down, sub, add. rewrite Hi, Hx.
    rewrite (value_in_representable k (a + Z.of_nat j * - delta - delta)) by in_type.
    cbn [mbind result_bind].
    rewrite (value_in_representable Signed (Z.of_nat j + 1)) by in_type.
    cbn [mbind result_bind mret result_ret]. do 2 f_equal; lia.
  - nia.
Qed.

(** ** The claims about [range] *)

Lemma head_ramp a d n : (0 < n)%nat -> head (ramp a d n) = Some a.
Proof.
  intros Hn. rewrite head_lookup, lookup_ramp by done. f_equal. lia.
Qed.

Lemma last_ramp a d n :
  (0 < n)%nat -> last (ramp a d n) = Some (a + (Z.of_nat n - 1) * d).
Proof.
  intros Hn. rewrite last_lookup, length_ramp, lookup_ramp by lia.
  f_equal. f_equal. f_equal. lia.
Qed.

Lemma ramp_adjacent a d n (j : nat) x y :
  ramp a d n !! j = Some x -> ramp a d n !! S j = Some y -> y = x + d.
Proof.
  intros [_ ->]%lookup_ramp_inv [_ ->]%lookup_ramp_inv. lia.
Qed.

Lemma ramp_ascending a b delta :
  a < b -> 0 < delta ->
  ascending_claim a b delta (ramp a delta (count (b - a) delta)).
Proof.
  intros Hab Hd.
  destruct (div_bounds (b - a) delta) as [Hq0 Hq]; [lia|lia|].
  assert (Z.of_nat (count (b - a) delta) = (b - a) / delta + 1) as Hcap
    by (unfold count; lia).
  split; [|split; [|split]].
  - now rewrite length_ramp.
  - intros j x y Hx Hy. rewrite (ramp_adjacent _ _ _ _ _ _ Hx Hy). lia.
  - apply head_ramp. lia.
  - eexists. split; [apply last_ramp; lia|]. rewrite Hcap. nia.
Qed.

Lemma ramp_descending a b delta :
  b <= a -> 0 < delta ->
  descending_claim a b (ramp a (- delta) (count (a - b) delta)).
Proof.
  intros Hab Hd.
  destruct (div_bounds (a - b) delta) as [Hq0 Hq]; [lia|lia|].
  assert (Z.of_nat (count (a - b) delta) = (a - b) / delta + 1) as Hcap
    by (unfold count; lia).
  split; [|split].
  - intros j x y Hx Hy. rewrite (ramp_adjacent _ _ _ _ _ _ Hx Hy). lia.
  - apply head_ramp. lia.
  - eexists. split; [apply last_ramp; lia|]. rewrite Hcap. nia.
Qed.

(** C1 as stated fails where the loop bound [b + delta] wraps around:
    [range(4294967294u, 4294967295u, 1u)] returns two zeros. *)
Lemma range_ascending_wraps :
  range Unsigned 4294967294 4294967295 1 = Ok [0; 0] /\
  ~ exists v, range Unsigned 4294967294 4294967295 1 = Ok v /\
              ascending_claim 4294967294 4294967295 1 v.
Proof.
  assert (range Unsigned 4294967294 4294967295 1 = Ok [0; 0]) as E
    by (vm_compute; reflexivity).
  split; [exact E|].
  intros (v & Hv & _ & _ & Hhead & _). rewrite E in Hv.
  injection Hv as <-. discriminate Hhead.
Qed.

(** C2 as stated fails where the loop bound [b - delta] wraps around:
    [range(5u, 0u, 1u)] returns six zeros. *)
Lemma range_descending_wraps :
  range Unsigned 5 0 1 = Ok [0; 0; 0; 0; 0; 0] /\
  ~ exists v, range Unsigned 5 0 1 = Ok v /\ descending_claim 5 0 v.
Proof.
  assert (range Unsigned 5 0 1 = Ok [0; 0; 0; 0; 0; 0]) as E
    by (vm_compute; reflexivity).
  split; [exact E|].
  intros (v & Hv & _ & Hhead & _). rewrite E in Hv.
  injection Hv as <-. discriminate Hhead.
Qed.



(** C3 fails on the code: in [range(1, 5, 1)] the vector has 5 elements and
    the loop makes 6 turns; the sixth stores 6 to [out[5]]. In
    [range(5, 1, 1)] the sixth turn stores 0 to [out[5]]. *)
Theorem range_stores_past_the_end :
  range_run Signed 1 5 1 = Ok (Fill 7 6 [1; 2; 3; 4; 5] [(5, 6)]) /\
  range_run Signed 5 1 1 = Ok (Fill (-1) 6 [5; 4; 3; 2; 1] [(5, 0)]) /\
  capacity 1 5 1 = 5 /\ capacity 5 1 1 = 5.
Proof. vm_compute. repeat split. Qed.

(** ** The call itself: the store past the end leaves it without a value *)

Lemma store_checked_inside x (j m : nat) a d st :
  store_checked (Fill x (Z.of_nat j) (ramp a d j ++ replicate (S m) 0) st) =
  Ok (Fill x (Z.of_nat j) (ramp a d j ++ x :: replicate m 0) st).
Proof.
  unfold store_checked; simpl.
  rewrite length_app, length_ramp. simpl. rewrite length_replicate.
  replace (0 <=? Z.of_nat j) with true by (symmetry; apply Z.leb_le; lia).
  replace (Z.of_nat j <? Z.of_nat (j + S m)) with true
    by (symmetry; apply Z.ltb_lt; lia).
  simpl. rewrite Nat2Z.id.
  rewrite insert_app_r_alt by (rewrite length_ramp; lia).
  rewrite length_ramp, Nat.sub_diag. done.
Qed.

Lemma store_checked_outside x (n : nat) v st :
  length v = n ->
  store_checked (Fill x (Z.of_nat n) v st) = Err out_of_bounds.
Proof.
  intros Hv. unfold store_checked; simpl. rewrite Hv.
  now rewrite Z.ltb_irrefl, andb_false_r.
Qed.

Section CheckedFill.
(** A fill loop that starts at [a], moves by [d] and whose test holds for
    the first [cap + 1] values of the counter. *)
Variables (cond : fill -> result bool) (incr : fill -> result fill).
Variables (a d : Z) (cap : nat).

Hypothesis cond_holds : forall s (j : nat),
  (j <= cap)%nat -> i s = a + Z.of_nat j * d -> cond s = Ok true.
Hypothesis incr_moves : forall s (j : nat),
  (j < cap)%nat -> i s = a + Z.of_nat j * d -> index s = Z.of_nat j ->
  incr s = Ok (Fill (a + Z.of_nat (S j) * d) (Z.of_nat (S j)) (out s) (stray s)).
Hypothesis cap_small : Z.of_nat cap < 4294967296.

(** After [j <= cap] turns the first [j] elements are written. *)
Lemma checked_prefix (j : nat) :
  (j <= cap)%nat ->
  iter_nat (for_turn cond store_checked incr) j (Fill a 0 (replicate cap 0) []) =
  inl (Fill (a + Z.of_nat j * d) (Z.of_nat j)
            (ramp a d j ++ replicate (cap - j) 0) []).
Proof.
  induction j as [|j IH]; intros Hj.
  - simpl. rewrite Nat.sub_0_r. do 2 f_equal. lia.
  - rewrite iter_nat_succ_r, IH by lia.
    unfold for_turn.
    rewrite (cond_holds _ j) by (simpl; lia).
    replace (cap - j)%nat with (S (cap - S j)) by lia.
    rewrite store_checked_inside. cbn [mbind result_bind].
    rewrite (incr_moves _ j) by (simpl; lia). simpl out. simpl stray.
    rewrite ramp_succ, <- app_assoc. done.
Qed.

(** The turn after the vector is full stores past its end. *)
Lemma checked_loop :
  for_loop cond store_checked incr (Fill a 0 (replicate cap 0) []) =
  Err out_of_bounds.
Proof.
  apply (for_loop_turns _ _ _ (S cap)); [|lia].
  rewrite iter_nat_succ_r, checked_prefix by lia.
  rewrite Nat.sub_diag, app_nil_r. unfold for_turn.
  rewrite (cond_holds _ cap) by (simpl; lia).
  now rewrite store_checked_outside by apply length_ramp.
Qed.
End CheckedFill.

(** C1 fails on the code: for bounds [a < b] and a step [delta > 0] of
    type [int] or [unsigned int], with [b + delta] and [b - a + delta]
    inside the type and fewer than 2^31 elements, the call
    [range(a, b, delta)] returns no sequence at all: once the vector is
    full the loop makes one more turn and stores past its end. *)
Theorem range_ascending_undefined k a b delta :
  representable k a -> representable k b -> representable k delta ->
  a < b -> 0 < delta ->
  b + delta <= max_val k ->
  b - a + delta <= max_val k ->
  (b - a) / delta < 2147483647 ->
  range k a b delta = Err out_of_bounds.
Proof.
  intros Ha Hb Hd Hab Hpos Hmax Hdiff Hcnt.
  destruct (div_bounds (b - a) delta) as [Hq0 Hq]; [lia|lia|].
  pose (cap := count (b - a) delta).
  assert (Z.of_nat cap = (b - a) / delta + 1) as Hcap by (unfold cap, count; lia).
  set (q := (b - a) / delta) in *.
  unfold range. replace (a <? b) with true by (symmetry; apply Z.ltb_lt; lia).
  unfold range_ascending_by, sub, add, div.
  rewrite (value_in_representable k (b - a)) by in_type.
  cbn [mbind result_bind].
  rewrite (value_in_representable k (b - a + delta)) by in_type.
  cbn [mbind result_bind].
  replace (delta =? 0) with false by (symmetry; apply Z.eqb_neq; lia).
  rewrite quot_count by lia. fold q.
  rewrite (value_in_representable k (q + 1)) by in_type.
  cbn [mbind result_bind]. unfold vector.
  replace (q + 1 <? 0) with false by (symmetry; apply Z.ltb_ge; lia).
  cbn [mbind result_bind]. fold (count (b - a) delta). fold cap.
  rewrite (checked_loop _ _ a delta cap); [done| | |lia].
  - intros s j Hj Hi.
    rewrite (value_in_representable k (b + delta)) by in_type.
    cbn [mbind result_bind mret result_ret]. f_equal. apply Z.leb_le. nia.
  - intros s j Hj Hi Hx. unfold step_up, add. rewrite Hi, Hx.
    rewrite (value_in_representable k (a + Z.of_nat j * delta + delta)) by in_type.
    cbn [mbind result_bind].
    rewrite (value_in_representable Signed (Z.of_nat j + 1)) by in_type.
    cbn [mbind result_bind mret result_ret]. do 2 f_equal; lia.
Qed.

Lemma range_ascending_undefined_witness :
  range Signed 3 20 4 = Err out_of_bounds.
Proof.
  apply range_ascending_undefined;
    unfold representable; simpl; try lia.
  change (20 - 3) with 17. change (17 / 4) with 4. lia.
Defined.

(** C2 fails on the code: for bounds [a >= b] and a step [delta > 0] of
    type [int] or [unsigned int], with [b - delta] and [a - b + delta]
    inside the type and fewer than 2^31 elements, the call
    [range(a, b, delta)] takes the descending branch and returns no
    sequence at all: once the vector is full the loop makes one more turn
    and stores past its end. *)
Theorem range_descending_undefined k a b delta :
  representable k a -> representable k b -> representable k delta ->
  b <= a -> 0 < delta ->
  min_val k <= b - delta ->
  a - b + delta <= max_val k ->
  (a - b) / delta < 2147483647 ->
  (a <? b) = false /\ range k a b delta = Err out_of_bounds.
Proof.
  intros Ha Hb Hd Hab Hpos Hmin Hdiff Hcnt.
  assert ((a <? b) = false) as Hbranch by (apply Z.ltb_ge; lia).
  split; [exact Hbranch|].
  destruct (div_bounds (a - b) delta) as [Hq0 Hq]; [lia|lia|].
  pose (cap := count (a - b) delta).
  assert (Z.of_nat cap = (a - b) / delta + 1) as Hcap by (unfold cap, count; lia).
  set (q := (a - b) / delta) in *.
  unfold range. rewrite Hbranch.
  unfold range_descending_by, sub, add, div.
  rewrite (value_in_representable k (a - b)) by in_type.
  cbn [mbind result_bind].
  rewrite (value_in_representable k (a - b + delta)) by in_type.
  cbn [mbind result_bind].
  replace (delta =? 0) with false by (symmetry; apply Z.eqb_neq; lia).
  rewrite quot_count by lia. fold q.
  rewrite (value_in_representable k (q + 1)) by in_type.
  cbn [mbind result_bind]. unfold vector.
  replace (q + 1 <? 0) with false by (symmetry; apply Z.ltb_ge; lia).
  cbn [mbind result_bind]. fold (count (a - b) delta). fold cap.
  rewrite (checked_loop _ _ a (- delta) cap); [done| | |lia].
  - intros s j Hj Hi.
    rewrite (value_in_representable k (b - delta)) by in_type.
    cbn [mbind result_bind mret result_ret]. f_equal. apply Z.geb_le. nia.
  - intros s j Hj Hi Hx. unfold step_down, sub, add. rewrite Hi, Hx.
    rewrite (value_in_representable k (a + Z.of_nat j * - delta - delta)) by in_type.
    cbn [mbind result_bind].
    rewrite (value_in_representable Signed (Z.of_nat j + 1)) by in_type.
    cbn [mbind result_bind mret result_ret]. do 2 f_equal; lia.
Qed.

Lemma range_descending_undefined_witness :
  (20 <? 7) = false /\ range Signed 20 7 3 = Err out_of_bounds.
Proof.
  apply range_descending_undefined;
    unfold representable; simpl; try lia.
  change (20 - 7) with 13. change (13 / 3) with 4. lia.
Defined.

(** C4 fails on the code: [range(1, 5)] and [range(5, 1)] allocate five
    elements and store a sixth, so neither call returns a sequence. *)
Theorem range_default_1_5_undefined :
  range_default Signed 1 5 = Err out_of_bounds /\
  range_default Signed 5 1 = Err out_of_bounds.
Proof. split; vm_compute; reflexivity. Qed.

(** C5 fails on the code: [range(0, 10, 2)] allocates six elements and
    stores a seventh, so the call returns no sequence. *)
Theorem range_0_10_2_undefined : range Signed 0 10 2 = Err out_of_bounds.
Proof. vm_compute. reflexivity. Qed.

(** ** The iteration bound is never reached *)

Lemma value_in_fault k z e : value_in k z = Err e -> e = signed_overflow.
Proof. destruct k; simpl; [destruct (fits _ _)|]; congruence. Qed.

Lemma div_fault k x y e :
  div k x y = Err e -> e = signed_overflow \/ e = division_by_zero.
Proof.
  unfold div. destruct (y =? 0); [intros [= <-]; now right|].
  intros He%value_in_fault. now left.
Qed.

Lemma index_store s : index (store s) = index s.
Proof. unfold store. now destruct (_ && _). Qed.

Section Fuel.
(** A fill loop whose increment counts [index] up inside [int]. *)
Variables (cond : fill -> result bool) (incr : fill -> result fill).

Hypothesis cond_fault : forall s e, cond s = Err e -> e = signed_overflow.
Hypothesis incr_fault : forall s e, incr s = Err e -> e = signed_overflow.
Hypothesis incr_index : forall s s',
  incr s = Ok s' -> index s' = index s + 1 /\ index s' <= 2147483647.

Lemma turn_index s s' :
  for_turn cond (fun s => mret (store s)) incr s = inl s' ->
  index s' = index s + 1 /\ index s' <= 2147483647.
Proof.
  unfold for_turn. destruct (cond s) as [[]|]; try done.
  cbn [mbind result_bind mret result_ret].
  destruct (incr (store s)) as [s1|] eqn:E; [|done].
  intros [= <-]. apply incr_index in E. now rewrite index_store in E.
Qed.

Lemma turn_fault s e :
  for_turn cond (fun s => mret (store s)) incr s = inr (Err e) ->
  e = signed_overflow.
Proof.
  unfold for_turn. destruct (cond s) as [[]|e'] eqn:Ec; try done.
  - cbn [mbind result_bind mret result_ret].
    destruct (incr (store s)) as [s1|e'] eqn:E; [done|].
    intros [= <-]. eauto.
  - intros [= <-]. eauto.
Qed.

Lemma turns_index n s s' :
  iter_nat (for_turn cond (fun s => mret (store s)) incr) n s = inl s' ->
  index s' = index s + Z.of_nat n /\ (n <> 0%nat -> index s' <= 2147483647).
Proof.
  revert s'. induction n as [|n IH]; intros s'.
  - simpl. intros [= <-]. split; [lia|done].
  - rewrite iter_nat_succ_r.
    destruct (iter_nat _ n s) as [s1|]; [|done].
    intros [Hs' Hle]%turn_index. destruct (IH s1 eq_refl) as [Hs1 _].
    split; [lia|done].
Qed.

Lemma turns_fault n s e :
  iter_nat (for_turn cond (fun s => mret (store s)) incr) n s = inr (Err e) ->
  e = signed_overflow.
Proof.
  revert s. induction n as [|n IH]; intros s; simpl; [done|].
  destruct (for_turn _ _ _ s) as [s1|r] eqn:E; [apply IH|].
  intros [= ->]. now apply turn_fault in E.
Qed.

Lemma for_loop_fuelled s :
  0 <= index s ->
  for_loop cond (fun s => mret (store s)) incr s <> Err out_of_fuel.
Proof.
  intros Hs. unfold for_loop. rewrite iter_pos_nat.
  destruct (iter_nat _ _ s) as [s'|r] eqn:E.
  - apply turns_index in E as [Hs' Hle].
    rewrite positive_nat_Z in Hs'. unfold fuel in *. 
    assert (Pos.to_nat 4294967296 <> 0%nat) as Hn by lia.
    specialize (Hle Hn). lia.
  - intros ->. now apply turns_fault in E.
Qed.
End Fuel.

(** [range] comes to an outcome within the bound of the model, whatever
    its arguments. *)
Lemma range_run_fuelled k a b delta : range_run k a b delta <> Err out_of_fuel.
Proof.
  unfold range_run, range_ascending, range_descending,
    range_ascending_by, range_descending_by.
  destruct (a <? b).
  - destruct (sub k b a) as [d|e] eqn:E1; cbn [mbind result_bind];
      [|apply value_in_fault in E1; congruence].
    destruct (add k d delta) as [n|e] eqn:E2; cbn [mbind result_bind];
      [|apply value_in_fault in E2; congruence].
    destruct (div k n delta) as [cap|e] eqn:E3; cbn [mbind result_bind];
      [|apply div_fault in E3 as [->| ->]; congruence].
    unfold vector. destruct (cap <? 0); cbn [mbind result_bind]; [done|].
    apply for_loop_fuelled; [| | |simpl; lia].
    + intros s e. destruct (add k b delta) eqn:E; cbn; [done|].
      intros [= <-]. now apply value_in_fault in E.
    + intros s e. unfold step_up.
      destruct (add k (i s) delta) eqn:E; cbn [mbind result_bind];
        [|intros [= <-]; now apply value_in_fault in E].
      destruct (add Signed (index s) 1) eqn:E'; cbn; [done|].
      intros [= <-]. unfold add in E'. now apply value_in_fault in E'.
    + intros s s'. unfold step_up.
      destruct (add k (i s) delta); cbn [mbind result_bind]; [|done].
      unfold add, value_in.
      destruct (fits Signed (index s + 1)) eqn:E; cbn [mbind result_bind]; [|done].
      intros [= <-]. simpl. apply fits_representable in E.
      unfold representable in E; simpl in E. lia.
  - destruct (sub k a b) as [d|e] eqn:E1; cbn [mbind result_bind];
      [|apply value_in_fault in E1; congruence].
    destruct (add k d delta) as [n|e] eqn:E2; cbn [mbind result_bind];
      [|apply value_in_fault in E2; congruence].
    destruct (div k n delta) as [cap|e] eqn:E3; cbn [mbind result_bind];
      [|apply div_fault in E3 as [->| ->]; congruence].
    unfold vector. destruct (cap <? 0); cbn [mbind result_bind]; [done|].
    apply for_loop_fuelled; [| | |simpl; lia].
    + intros s e. destruct (sub k b delta) eqn:E; cbn; [done|].
      intros [= <-]. now apply value_in_fault in E.
    + intros s e. unfold step_down.
      destruct (sub k (i s) delta) eqn:E; cbn [mbind result_bind];
        [|intros [= <-]; now apply value_in_fault in E].
      destruct (add Signed (index s) 1) eqn:E'; cbn; [done|].
      intros [= <-]. unfold add in E'. now apply value_in_fault in E'.
    + intros s s'. unfold step_down.
      destruct (sub k (i s) delta); cbn [mbind result_bind]; [|done].
      unfold add, value_in.
      destruct (fits Signed (index s + 1)) eqn:E; cbn [mbind result_bind]; [|done].
      intros [= <-]. simpl. apply fits_representable in E.
      unfold representable in E; simpl in E. lia.
Qed.

(** ** Facts about [sum] and [mult] *)

Section FoldFacts.
Context {R : Type} `{Arithmetic R}.

Lemma sum_helper_heads (ports : list nat) (w : world R) :
  sum_helper ports w =
  match heads ports (fifos w) with
  | Some (vals, m) =>
      r ← fold_vals plus (cast 0) vals; mret (r, World m (calls w ++ ports))
  | None => Err would_block
  end.
Proof.
  revert w. induction ports as [|port ports IH]; intros [m c]; simpl.
  - now rewrite app_nil_r.
  - unfold pop; simpl. destruct (m !! port) as [[|val rest]|]; try done.
    cbn [mbind result_bind]. rewrite IH. simpl.
    destruct (heads ports _) as [[vals m']|]; simpl; [|done].
    rewrite <- app_assoc. simpl.
    destruct (fold_vals plus (cast 0) vals); simpl; [|done].
    now destruct (plus val _).
Qed.

Lemma mult_helper_heads (ports : list nat) (w : world R) :
  mult_helper ports w =
  match heads ports (fifos w) with
  | Some (vals, m) =>
      r ← fold_vals times (cast 1) vals; mret (r, World m (calls w ++ ports))
  | None => Err would_block
  end.
Proof.
  revert w. induction ports as [|port ports IH]; intros [m c]; simpl.
  - now rewrite app_nil_r.
  - unfold pop; simpl. destruct (m !! port) as [[|val rest]|]; try done.
    cbn [mbind result_bind]. rewrite IH. simpl.
    destruct (heads ports _) as [[vals m']|]; simpl; [|done].
    rewrite <- app_assoc. simpl.
    destruct (fold_vals times (cast 1) vals); simpl; [|done].
    now destruct (times val _).
Qed.

End FoldFacts.

(** Permuting the ports permutes the popped values and leaves the same
    FIFOs behind. *)
Lemma heads_permutation {R : Type} (ports ports' : list nat) :
  ports ≡ₚ ports' ->
  forall m : gmap nat (list R),
    option_Forall2 (fun p p' => p.1 ≡ₚ p'.1 /\ p.2 = p'.2)
                   (heads ports m) (heads ports' m).
Proof.
  induction 1 as [|x l l' _ IH|x y l|l1 l2 l3 _ IH12 _ IH23]; intros m.
  - now constructor.
  - simpl. destruct (m !! x) as [[|val rest]|]; try constructor.
    destruct (IH (<[x:=rest]> m)) as [[vs m1] [vs' m1'] [Hvs Hm]|]; simpl in *.
    + constructor. simpl. split; [now constructor|done].
    + constructor.
  - destruct (decide (x = y)) as [->|Hxy]; [reflexivity|].
    simpl.
    destruct (m !! y) as [[|vy qy]|] eqn:Hy, (m !! x) as [[|vx qx]|] eqn:Hx;
      rewrite ?lookup_insert_ne, ?Hx, ?Hy by done; try constructor.
    rewrite (insert_insert_ne m x y) by done.
    destruct (heads l _) as [[vs m']|]; simpl; constructor.
    simpl. split; [apply perm_swap|done].
  - specialize (IH12 m). specialize (IH23 m).
    destruct (heads l1 m), (heads l2 m), (heads l3 m);
      inversion IH12 as [? ? [Hv Hm]|]; inversion IH23 as [? ? [Hv' Hm']|];
      subst; constructor.
    split; [by etrans|congruence].
Qed.

Lemma fold_call_heads {R : Type} `{Arithmetic R} (f : fold_op) ports (w : world R) :
  fold_call f ports w =
  match heads ports (fifos w) with
  | Some (vals, m) =>
      r ← match f with
          | Sum => fold_vals plus (cast 0) vals
          | Mult => fold_vals times (cast 1) vals
          end;
      mret (r, World m (calls w ++ ports))
  | None => Err would_block
  end.
Proof. destruct f; [apply sum_helper_heads | apply mult_helper_heads]. Qed.

(** Distinct ports that all hold a value can all be popped. *)
Lemma heads_distinct {R : Type} (ports : list nat) (m : gmap nat (list R)) :
  NoDup ports ->
  (forall port, port ∈ ports -> exists val rest, m !! port = Some (val :: rest)) ->
  exists vals m', heads ports m = Some (vals, m') /\
    Forall2 (fun port val => exists rest, m !! port = Some (val :: rest)) ports vals.
Proof.
  revert m. induction ports as [|port ports IH]; intros m Hnd Hin.
  - exists [], m. split; [done|constructor].
  - apply NoDup_cons in Hnd as [Hnot Hnd].
    destruct (Hin port) as (val & rest & Hport); [left|].
    destruct (IH (<[port:=rest]> m) Hnd) as (vals & m' & Hh & Hall).
    { intros p Hp. rewrite lookup_insert_ne by (intros ->; done).
      apply Hin. now right. }
    exists (val :: vals), m'. simpl. rewrite Hport, Hh. split; [done|].
    constructor; [eauto|].
    clear -Hall Hnot. induction Hall as [|p v ps vs [rest' Hp] _ IHall]; constructor.
    + exists rest'. rewrite lookup_insert_ne in Hp; [done|].
      intros ->. apply Hnot. left.
    + apply IHall. intros Hin. apply Hnot. now right.
Qed.

Section ExactFacts.
Context {R : Type} `{ExactArithmetic R}.

Lemma fold_vals_plus_exact (unit : R) vals :
  fold_vals plus unit vals = Ok (foldr exact_plus unit vals).
Proof.
  induction vals as [|val vals IH]; simpl; [done|].
  rewrite IH. simpl. apply plus_exact.
Qed.

Lemma fold_vals_times_exact (unit : R) vals :
  fold_vals times unit vals = Ok (foldr exact_times unit vals).
Proof.
  induction vals as [|val vals IH]; simpl; [done|].
  rewrite IH. simpl. apply times_exact.
Qed.

(** With exact arithmetic a fold returns whenever its pops do. *)
Lemma fold_call_returns (f : fold_op) ports (w : world R) vals m :
  heads ports (fifos w) = Some (vals, m) ->
  exists r, fold_call f ports w = Ok (r, World m (calls w ++ ports)).
Proof.
  intros Hh. rewrite fold_call_heads, Hh.
  destruct f; rewrite ?fold_vals_plus_exact, ?fold_vals_times_exact; simpl; eauto.
Qed.

End ExactFacts.

(** [unsigned int] is exact: its arithmetic is modulo 2^32. *)
Lemma unsigned_plus_comm : Comm (=) (fun x y : Z => (x + y) mod 4294967296).
Proof. intros x y. f_equal. lia. Qed.

Lemma unsigned_plus_assoc : Assoc (=) (fun x y : Z => (x + y) mod 4294967296).
Proof.
  intros x y z. simpl.
  rewrite Zplus_mod_idemp_r, Zplus_mod_idemp_l. f_equal. lia.
Qed.

Lemma unsigned_times_comm : Comm (=) (fun x y : Z => (x * y) mod 4294967296).
Proof. intros x y. f_equal. lia. Qed.

Lemma unsigned_times_assoc : Assoc (=) (fun x y : Z => (x * y) mod 4294967296).
Proof.
  intros x y z. simpl.
  rewrite Zmult_mod_idemp_r, Zmult_mod_idemp_l. f_equal. lia.
Qed.

Lemma unsigned_plus_exact (x y : integer Unsigned) :
  plus x y = Ok ((x + y) mod 4294967296).
Proof. reflexivity. Qed.

Lemma unsigned_times_exact (x y : integer Unsigned) :
  times x y = Ok ((x * y) mod 4294967296).
Proof. reflexivity. Qed.

#[global] Instance unsigned_exact : ExactArithmetic (integer Unsigned) := {|
  exact_plus := fun x y : Z => (x + y) mod 4294967296;
  exact_times := fun x y : Z => (x * y) mod 4294967296;
  plus_exact := unsigned_plus_exact;
  times_exact := unsigned_times_exact;
  exact_plus_comm := unsigned_plus_comm;
  exact_plus_assoc := unsigned_plus_assoc;
  exact_times_comm := unsigned_times_comm;
  exact_times_assoc := unsigned_times_assoc
|}.

(** ** The claims about [sum] and [mult] *)

(** C6: for every result type, [sum] of no ports returns [0] and [mult] of
    no ports returns [1], and the ports' world is left as it was: nothing
    is popped. *)
Theorem fold_of_no_ports :
  (forall (R : Type) (A : Arithmetic R) (w : world R),
     sum [] w = Ok (cast 0, w) /\ mult [] w = Ok (cast 1, w)) /\
  (forall (k : kind) (w : world (integer k)),
     sum [] w = Ok (0 : integer k, w) /\ mult [] w = Ok (1 : integer k, w)).
Proof.
  split.
  - intros R A w. split; reflexivity.
  - intros [] w; split; reflexivity.
Qed.

(** Ports that hold as many values as they are named can all be popped. *)
Lemma heads_enough {R : Type} (ports : list nat) (m : gmap nat (list R)) :
  (forall port,
     (count_occ Nat.eq_dec ports port <= length (default [] (m !! port)))%nat) ->
  exists vals m', heads ports m = Some (vals, m').
Proof.
  revert m. induction ports as [|x ports IH]; intros m Hen.
  - simpl. eauto.
  - assert (exists val rest, m !! x = Some (val :: rest)) as (val & rest & Hx).
    { specialize (Hen x). rewrite count_occ_cons_eq in Hen by done.
      destruct (m !! x) as [[|val rest]|]; simpl in Hen; try lia. eauto. }
    destruct (IH (<[x:=rest]> m)) as (vals & m' & Hh).
    { intros port. specialize (Hen port).
      destruct (Nat.eq_dec x port) as [->|Hne].
      - rewrite count_occ_cons_eq in Hen by done.
        rewrite lookup_insert_eq. rewrite Hx in Hen. simpl in *. lia.
      - rewrite count_occ_cons_neq in Hen by done.
        now rewrite lookup_insert_ne. }
    exists (val :: vals), m'. simpl. now rewrite Hx, Hh.
Qed.

Lemma fold_vals_total {R : Type} (op : R -> R -> result R) (unit : R) vals :
  (forall x y, exists z, op x y = Ok z) ->
  exists r, fold_vals op unit vals = Ok r.
Proof.
  intros Htot. induction vals as [|val vals [rest IH]]; simpl; [eauto|].
  rewrite IH. simpl. apply Htot.
Qed.

(** With ports that hold enough values and arithmetic that always has a
    value, a fold returns, and its world is the one the pops leave. *)
Lemma fold_call_total {R : Type} `{Arithmetic R}
    (f : fold_op) (ports : list nat) (w : world R) :
  (forall port,
     (count_occ Nat.eq_dec ports port <=
      length (default [] (fifos w !! port)))%nat) ->
  (forall x y : R, exists z, plus x y = Ok z) ->
  (forall x y : R, exists z, times x y = Ok z) ->
  exists r m, fold_call f ports w = Ok (r, World m (calls w ++ ports)).
Proof.
  intros Hen Hplus Htimes.
  destruct (heads_enough ports (fifos w) Hen) as (vals & m & Hh).
  rewrite fold_call_heads, Hh. destruct f.
  - destruct (fold_vals_total plus (cast 0) vals Hplus) as [r ->]. simpl. eauto.
  - destruct (fold_vals_total times (cast 1) vals Htimes) as [r ->]. simpl. eauto.
Qed.

(** C7: a call of [sum] or [mult] invokes [pop] once on each of its ports,
    in the order of the arguments. When the ports hold the values asked of
    them and the arithmetic always has a value, the call returns and the
    calls it has added to the log are the argument list itself; and the
    same holds of every returning call, whatever the arithmetic. *)
Theorem pops_once_in_order {R : Type} `{Arithmetic R}
    (f : fold_op) (ports : list nat) (w : world R) :
  (forall port,
     (count_occ Nat.eq_dec ports port <=
      length (default [] (fifos w !! port)))%nat) ->
  ((forall x y : R, exists z, plus x y = Ok z) ->
   (forall x y : R, exists z, times x y = Ok z) ->
   exists r w', fold_call f ports w = Ok (r, w') /\
                calls w' = calls w ++ ports) /\
  (forall r w', fold_call f ports w = Ok (r, w') ->
                calls w' = calls w ++ ports).
Proof.
  intros Hen. split.
  - intros Hplus Htimes.
    destruct (fold_call_total f ports w Hen Hplus Htimes) as (r & m & Hr).
    exists r, (World m (calls w ++ ports)). split; [exact Hr|done].
  - intros r w'. rewrite fold_call_heads.
    destruct (heads ports (fifos w)) as [[vals m]|]; [|done].
    destruct f.
    + destruct (fold_vals plus (cast 0) vals); simpl; [|done].
      intros [= _ <-]. done.
    + destruct (fold_vals times (cast 1) vals); simpl; [|done].
      intros [= _ <-]. done.
Qed.

Lemma pops_once_in_order_witness :
  let w : world (integer Unsigned) :=
    World {[ 2%nat := [5; 6]; 7%nat := [8]; 4%nat := [1] ]} [9%nat] in
  exists r w', fold_call Mult [7; 2; 4; 2]%nat w = Ok (r, w') /\
               calls w' = [9; 7; 2; 4; 2]%nat.
Proof.
  intros w.
  refine (proj1 (pops_once_in_order Mult [7; 2; 4; 2]%nat w _) _ _).
  - intros port.
    destruct (decide (port = 2%nat)) as [->|H2]; [vm_compute; lia|].
    destruct (decide (port = 7%nat)) as [->|H7]; [vm_compute; lia|].
    destruct (decide (port = 4%nat)) as [->|H4]; [vm_compute; lia|].
    rewrite !count_occ_cons_neq by congruence. simpl. lia.
  - intros x y. eexists. reflexivity.
  - intros x y. eexists. reflexivity.
Defined.

(** C8: on a nonempty pack the result is the value popped from the first
    port combined, by [+] for [sum] and by [*] for [mult], with the fold of
    the remaining ports, which runs after that pop: [first op (rest
    folded)]. When the ports hold the values asked of them and the
    arithmetic always has a value, the fold of the rest returns some
    [rest] and the call returns [val + rest], resp. [val * rest]. *)
Theorem fold_first_with_rest {R : Type} `{Arithmetic R}
    (port : nat) (ports : list nat) (w : world R) (val : R) (q : list R) :
  fifos w !! port = Some (val :: q) ->
  let w1 := World (<[port := q]> (fifos w)) (calls w ++ [port]) in
  (sum (port :: ports) w =
     ('(rest, w2) ← sum ports w1; r ← plus val rest; mret (r, w2)) /\
   mult (port :: ports) w =
     ('(rest, w2) ← mult ports w1; r ← times val rest; mret (r, w2))) /\
  ((forall p,
      (count_occ Nat.eq_dec (port :: ports) p <=
       length (default [] (fifos w !! p)))%nat) ->
   (forall x y : R, exists z, plus x y = Ok z) ->
   (forall x y : R, exists z, times x y = Ok z) ->
   (exists rest w2 r, sum ports w1 = Ok (rest, w2) /\ plus val rest = Ok r /\
                      sum (port :: ports) w = Ok (r, w2)) /\
   (exists rest w2 r, mult ports w1 = Ok (rest, w2) /\ times val rest = Ok r /\
                      mult (port :: ports) w = Ok (r, w2))).
Proof.
  intros Hport w1.
  assert (pop port w = Ok (val, w1)) as Hpop by (unfold pop; now rewrite Hport).
  assert (sum (port :: ports) w =
            ('(rest, w2) ← sum ports w1; r ← plus val rest; mret (r, w2)) /\
          mult (port :: ports) w =
            ('(rest, w2) ← mult ports w1; r ← times val rest; mret (r, w2)))
    as [Hsum Hmult].
  { unfold sum, mult. simpl. rewrite Hpop. split; reflexivity. }
  split; [by split|].
  intros Hen Hplus Htimes.
  assert (forall p,
    (count_occ Nat.eq_dec ports p <= length (default [] (fifos w1 !! p)))%nat)
    as Hen1.
  { intros p. specialize (Hen p). simpl fifos.
    destruct (Nat.eq_dec port p) as [->|Hne].
    - rewrite count_occ_cons_eq in Hen by done.
      rewrite lookup_insert_eq. rewrite Hport in Hen. simpl in *. lia.
    - rewrite count_occ_cons_neq in Hen by done.
      now rewrite lookup_insert_ne. }
  split.
  - destruct (fold_call_total Sum ports w1 Hen1 Hplus Htimes) as (rest & m & Hr).
    simpl in Hr. destruct (Hplus val rest) as [r Hv].
    exists rest, (World m (calls w1 ++ ports)), r.
    split; [exact Hr|]. split; [exact Hv|].
    rewrite Hsum, Hr. cbn [mbind result_bind]. rewrite Hv. reflexivity.
  - destruct (fold_call_total Mult ports w1 Hen1 Hplus Htimes) as (rest & m & Hr).
    simpl in Hr. destruct (Htimes val rest) as [r Hv].
    exists rest, (World m (calls w1 ++ ports)), r.
    split; [exact Hr|]. split; [exact Hv|].
    rewrite Hmult, Hr. cbn [mbind result_bind]. rewrite Hv. reflexivity.
Qed.

Lemma fold_first_with_rest_witness :
  let w : world (integer Unsigned) :=
    World {[ 0%nat := [2]; 1%nat := [10]; 3%nat := [4294967295] ]} [] in
  let w1 : world (integer Unsigned) :=
    World (<[0%nat := []]> (fifos w)) (calls w ++ [0%nat]) in
  (exists rest w2 r,
     sum [1; 3]%nat w1 = Ok (rest, w2) /\ plus (2 : integer Unsigned) rest = Ok r /\
     sum [0; 1; 3]%nat w = Ok (r, w2)) /\
  (exists rest w2 r,
     mult [1; 3]%nat w1 = Ok (rest, w2) /\ times (2 : integer Unsigned) rest = Ok r /\
     mult [0; 1; 3]%nat w = Ok (r, w2)).
Proof.
  intros w w1.
  refine (proj2 (fold_first_with_rest 0%nat [1; 3]%nat w
                   (2 : integer Unsigned) [] _) _ _ _).
  - vm_compute. reflexivity.
  - intros p.
    destruct (decide (p = 0%nat)) as [->|H0]; [vm_compute; lia|].
    destruct (decide (p = 1%nat)) as [->|H1]; [vm_compute; lia|].
    destruct (decide (p = 3%nat)) as [->|H3]; [vm_compute; lia|].
    rewrite !count_occ_cons_neq by congruence. simpl. lia.
  - intros x y. eexists. reflexivity.
  - intros x y. eexists. reflexivity.
Defined.

(** The closed form: [v1 op (v2 op (... (vn op unit)))] over the popped
    values. *)
Lemma fold_is_right_fold {R : Type} `{Arithmetic R}
    (ports : list nat) (w : world R) vals m :
  heads ports (fifos w) = Some (vals, m) ->
  fst <$> sum ports w = fold_vals plus (cast 0) vals /\
  fst <$> mult ports w = fold_vals times (cast 1) vals.
Proof.
  intros Hh. unfold sum, mult.
  rewrite sum_helper_heads, mult_helper_heads, Hh.
  split.
  - now destruct (fold_vals plus _ _).
  - now destruct (fold_vals times _ _).
Qed.

(** C9: with one port yielding 3 and another yielding 4, [sum] returns 7
    and [mult] returns 12. *)
Theorem sum_7_mult_12 (k : kind) (w : world (integer k)) (p q : nat)
    (tp tq : list (integer k)) :
  p <> q ->
  fifos w !! p = Some ((3 : integer k) :: tp) ->
  fifos w !! q = Some ((4 : integer k) :: tq) ->
  fst <$> sum [p; q] w = Ok (7 : integer k) /\
  fst <$> mult [p; q] w = Ok (12 : integer k).
Proof.
  intros Hpq Hp Hq.
  assert (heads [p; q] (fifos w) =
          Some ([3; 4], <[q:=tq]> (<[p:=tp]> (fifos w)))) as Hh.
  { cbn [heads]. rewrite Hp, lookup_insert_ne, Hq by done. done. }
  destruct (fold_is_right_fold [p; q] w _ _ Hh) as [-> ->].
  destruct k; split; reflexivity.
Qed.

Lemma sum_7_mult_12_witness :
  let w : world (integer Signed) := World {[ 0%nat := [3]; 1%nat := [4] ]} [] in
  fst <$> sum [0; 1]%nat w = Ok (7 : integer Signed) /\
  fst <$> mult [0; 1]%nat w = Ok (12 : integer Signed).
Proof.
  intros w. apply (sum_7_mult_12 Signed w 0%nat 1%nat [] []).
  - lia.
  - vm_compute. reflexivity.
  - vm_compute. reflexivity.
Defined.

(** C10: with exact arithmetic, [sum] and [mult] of a permutation of the
    ports return the same value (and leave the same FIFOs). *)
Theorem fold_order_independent {R : Type} `{ExactArithmetic R}
    (ports ports' : list nat) (w : world R) :
  ports ≡ₚ ports' ->
  observe (sum ports w) = observe (sum ports' w) /\
  observe (mult ports w) = observe (mult ports' w).
Proof.
  intros Hperm. unfold sum, mult.
  rewrite !sum_helper_heads, !mult_helper_heads.
  pose proof exact_plus_comm. pose proof exact_plus_assoc.
  pose proof exact_times_comm. pose proof exact_times_assoc.
  destruct (heads_permutation ports ports' Hperm (fifos w))
    as [[vals m] [vals' m'] [Hvals Hm]|]; [|done].
  simpl in Hvals, Hm. subst m'.
  rewrite !fold_vals_plus_exact, !fold_vals_times_exact. simpl.
  unfold observe; simpl.
  rewrite (foldr_permutation_proper' (=) exact_plus (cast 0) _ _ Hvals).
  rewrite (foldr_permutation_proper' (=) exact_times (cast 1) _ _ Hvals).
  done.
Qed.

Lemma fold_order_independent_witness :
  let w : world (integer Unsigned) :=
    World {[ 0%nat := [3]; 1%nat := [4]; 2%nat := [4294967295] ]} [] in
  observe (sum [0; 1; 2]%nat w) = observe (sum [2; 0; 1]%nat w) /\
  observe (mult [0; 1; 2]%nat w) = observe (mult [2; 0; 1]%nat w).
Proof.
  intros w. apply fold_order_independent.
  apply (bool_decide_unpack _). vm_compute. exact I.
Defined.

(** For [int], where an overflow has no value, two calls that both return
    agree as well. *)
Lemma fold_vals_add_signed (unit : Z) vals r :
  fold_vals (add Signed) unit vals = Ok r -> r = foldr Z.add unit vals.
Proof.
  revert r. induction vals as [|val vals IH]; intros r; simpl; [congruence|].
  destruct (fold_vals _ _ vals) as [rest|]; [|done]. simpl.
  rewrite <- (IH rest eq_refl). unfold add, value_in.
  destruct (fits _ _); congruence.
Qed.

Lemma fold_vals_mul_signed (unit : Z) vals r :
  fold_vals (mul Signed) unit vals = Ok r -> r = foldr Z.mul unit vals.
Proof.
  revert r. induction vals as [|val vals IH]; intros r; simpl; [congruence|].
  destruct (fold_vals _ _ vals) as [rest|]; [|done]. simpl.
  rewrite <- (IH rest eq_refl). unfold mul, value_in.
  destruct (fits _ _); congruence.
Qed.

Lemma fold_order_independent_int (f : fold_op) (ports ports' : list nat)
    (w : world (integer Signed)) r w1 r' w1' :
  ports ≡ₚ ports' ->
  fold_call f ports w = Ok (r, w1) ->
  fold_call f ports' w = Ok (r', w1') ->
  r = r' /\ fifos w1 = fifos w1'.
Proof.
  intros Hperm. rewrite !fold_call_heads.
  destruct (heads_permutation ports ports' Hperm (fifos w))
    as [[vals m] [vals' m'] [Hvals Hm]|]; [|done].
  simpl in Hvals, Hm. subst m'.
  destruct f.
  - destruct (fold_vals plus (cast 0) vals) as [x|] eqn:E; [|done].
    destruct (fold_vals plus (cast 0) vals') as [x'|] eqn:E'; [|done].
    simpl. intros [= <- <-] [= <- <-].
    apply fold_vals_add_signed in E, E'. subst. split; [|done].
    exact (foldr_permutation_proper' (=) Z.add _ _ _ Hvals).
  - destruct (fold_vals times (cast 1) vals) as [x|] eqn:E; [|done].
    destruct (fold_vals times (cast 1) vals') as [x'|] eqn:E'; [|done].
    simpl. intros [= <- <-] [= <- <-].
    apply fold_vals_mul_signed in E, E'. subst. split; [|done].
    exact (foldr_permutation_proper' (=) Z.mul _ _ _ Hvals).
Qed.

(** * Further properties of [range] *)

(** X1: with a zero step [range] never returns a vector: the capacity
    [(b - a + 0) / 0] is a division by zero (unless the difference of the
    bounds already overflows [int]). *)
Theorem range_zero_step k a b :
  range k a b 0 = Err division_by_zero \/ range k a b 0 = Err signed_overflow.
Proof.
  unfold range, range_ascending_by, range_descending_by, add, div.
  destruct (a <? b).
  - destruct (sub k b a) as [d|e] eqn:E1; cbn [mbind result_bind];
      [|apply value_in_fault in E1; subst; now right].
    destruct (value_in k (d + 0)) as [n|e] eqn:E2; cbn [mbind result_bind];
      [|apply value_in_fault in E2; subst; now right].
    now left.
  - destruct (sub k a b) as [d|e] eqn:E1; cbn [mbind result_bind];
      [|apply value_in_fault in E1; subst; now right].
    destruct (value_in k (d + 0)) as [n|e] eqn:E2; cbn [mbind result_bind];
      [|apply value_in_fault in E2; subst; now right].
    now left.
Qed.

(** The logged run of an ascending and of a descending call that stays
    inside the type: the vector as the stores inside it have filled it,
    and the one store past its end. *)
Lemma range_run_ascending k a b delta :
  representable k a -> representable k b -> representable k delta ->
  a < b -> 0 < delta ->
  b + 2 * delta <= max_val k ->
  b - a + delta < 2147483647 ->
  exists s, range_run k a b delta = Ok s /\
    out s = ramp a delta (count (b - a) delta) /\
    stray s = [(Z.of_nat (length (out s)), a + Z.of_nat (length (out s)) * delta)].
Proof.
  intros Ha Hb Hd Hab Hpos Hmax Hcnt. eexists. split.
  - unfold range_run.
    replace (a <? b) with true by (symmetry; apply Z.ltb_lt; lia).
    now apply range_ascending_run.
  - simpl. now rewrite length_ramp.
Qed.

Lemma range_run_descending k a b delta :
  representable k a -> representable k b -> representable k delta ->
  b <= a -> 0 < delta ->
  min_val k <= b - 2 * delta ->
  a - b + delta < 2147483647 ->
  exists s, range_run k a b delta = Ok s /\
    out s = ramp a (- delta) (count (a - b) delta) /\
    stray s = [(Z.of_nat (length (out s)), a - Z.of_nat (length (out s)) * delta)].
Proof.
  intros Ha Hb Hd Hab Hpos Hmin Hcnt. eexists. split.
  - unfold range_run.
    replace (a <? b) with false by (symmetry; apply Z.ltb_ge; lia).
    now apply range_descending_run.
  - simpl. rewrite length_ramp. split; [done|]. do 2 f_equal. lia.
Qed.

(** X2: in the logged run of an ascending call that stays inside the
    type, the stores made before the one past the end have filled the
    vector: element [j] is [a + j * delta], and every element lies between
    [a] and [b]; the last store of the run is the one past the end. *)
Theorem range_ascending_fills k a b delta :
  representable k a -> representable k b -> representable k delta ->
  a < b -> 0 < delta ->
  b + 2 * delta <= max_val k ->
  b - a + delta < 2147483647 ->
  exists s, range_run k a b delta = Ok s /\
    (forall j : nat, (j < length (out s))%nat ->
       out s !! j = Some (a + Z.of_nat j * delta)) /\
    (forall x, x ∈ out s -> a <= x <= b) /\
    stray s = [(Z.of_nat (length (out s)), a + Z.of_nat (length (out s)) * delta)].
Proof.
  intros Ha Hb Hd Hab Hpos Hmax Hcnt.
  destruct (div_bounds (b - a) delta) as [Hq0 Hq]; [lia|lia|].
  assert (Z.of_nat (count (b - a) delta) = (b - a) / delta + 1) as Hcap
    by (unfold count; lia).
  destruct (range_run_ascending k a b delta) as (s & Hs & Hout & Hstray);
    try done.
  exists s. split; [exact Hs|]. rewrite Hout in *. split; [|split; [|exact Hstray]].
  - intros j Hj. rewrite length_ramp in Hj. now apply lookup_ramp.
  - intros x [j Hx]%list_elem_of_lookup.
    apply lookup_ramp_inv in Hx as [Hj ->]. nia.
Qed.

Lemma range_ascending_fills_witness :
  exists s, range_run Unsigned 2 11 3 = Ok s /\
    (forall j : nat, (j < length (out s))%nat ->
       out s !! j = Some (2 + Z.of_nat j * 3)) /\
    (forall x, x ∈ out s -> 2 <= x <= 11) /\
    stray s = [(Z.of_nat (length (out s)), 2 + Z.of_nat (length (out s)) * 3)].
Proof.
  apply range_ascending_fills; unfold representable; simpl; lia.
Defined.

(** X3: in the logged run of a descending call that stays inside the
    type, the vector has [floor((a-b)/delta) + 1] elements, the stores
    made before the one past the end have filled it, element [j] being
    [a - j * delta], and every element lies between [b] and [a]; the last
    store of the run is the one past the end. *)
Theorem range_descending_fills k a b delta :
  representable k a -> representable k b -> representable k delta ->
  b <= a -> 0 < delta ->
  min_val k <= b - 2 * delta ->
  a - b + delta < 2147483647 ->
  exists s, range_run k a b delta = Ok s /\
    Z.of_nat (length (out s)) = (a - b) / delta + 1 /\
    (forall j : nat, (j < length (out s))%nat ->
       out s !! j = Some (a - Z.of_nat j * delta)) /\
    (forall x, x ∈ out s -> b <= x <= a) /\
    stray s = [(Z.of_nat (length (out s)), a - Z.of_nat (length (out s)) * delta)].
Proof.
  intros Ha Hb Hd Hab Hpos Hmin Hcnt.
  destruct (div_bounds (a - b) delta) as [Hq0 Hq]; [lia|lia|].
  assert (Z.of_nat (count (a - b) delta) = (a - b) / delta + 1) as Hcap
    by (unfold count; lia).
  destruct (range_run_descending k a b delta) as (s & Hs & Hout & Hstray);
    try done.
  exists s. split; [exact Hs|]. rewrite Hout in *.
  split; [|split; [|split; [|exact Hstray]]].
  - now rewrite length_ramp.
  - intros j Hj. rewrite length_ramp in Hj. rewrite lookup_ramp by done.
    f_equal. lia.
  - intros x [j Hx]%list_elem_of_lookup.
    apply lookup_ramp_inv in Hx as [Hj ->]. nia.
Qed.

Lemma range_descending_fills_witness :
  exists s, range_run Signed 4 (-7) 5 = Ok s /\
    Z.of_nat (length (out s)) = (4 - -7) / 5 + 1 /\
    (forall j : nat, (j < length (out s))%nat ->
       out s !! j = Some (4 - Z.of_nat j * 5)) /\
    (forall x, x ∈ out s -> -7 <= x <= 4) /\
    stray s = [(Z.of_nat (length (out s)), 4 - Z.of_nat (length (out s)) * 5)].
Proof.
  apply range_descending_fills; unfold representable; simpl; lia.
Defined.







(** ** Loops that stop at once and loops that never leave *)

Lemma for_loop_stops_at_once {St : Type} (cond : St -> result bool)
    (body incr : St -> result St) s :
  cond s = Ok false -> for_loop cond body incr s = Ok s.
Proof.
  intros Hc. apply (for_loop_turns _ _ _ 1); [|lia].
  simpl. unfold for_turn. now rewrite Hc.
Qed.

Section NeverLeaves.
Context {St : Type}.
Variables (cond : St -> result bool) (body incr : St -> result St).
Variable P : St -> Prop.

Hypothesis test_holds : forall s, P s -> cond s <> Ok false.
Hypothesis turn_keeps : forall s s', P s -> body s ≫= incr = Ok s' -> P s'.

Lemma turns_never_leave n s :
  P s ->
  match iter_nat (for_turn cond body incr) n s with
  | inl s' => P s'
  | inr (Ok _) => False
  | inr (Err _) => True
  end.
Proof.
  revert s. induction n as [|n IH]; intros s Hs; simpl; [done|].
  unfold for_turn at 1.
  destruct (cond s) as [[]|] eqn:Ec; [|now apply test_holds in Ec|done].
  destruct (body s ≫= incr) as [s1|] eqn:Es; [|done].
  apply IH. eauto.
Qed.

Lemma for_loop_never_returns s s' :
  P s -> for_loop cond body incr s <> Ok s'.
Proof.
  intros Hs. unfold for_loop. rewrite iter_pos_nat.
  pose proof (turns_never_leave (Pos.to_nat fuel) s Hs) as Hn.
  destruct (iter_nat _ _ s) as [|[|]]; [done|done|done].
Qed.
End NeverLeaves.

Lemma value_in_signed z r : value_in Signed z = Ok r -> r = z.
Proof. simpl. destruct (fits _ _); congruence. Qed.

Lemma div_signed n d r : div Signed n d = Ok r -> d <> 0 /\ r = Z.quot n d.
Proof.
  unfold div. destruct (d =? 0) eqn:E; [done|].
  intros <-%value_in_signed. split; [|done]. now apply Z.eqb_neq.
Qed.

Lemma vector_inv cap v :
  vector cap = Ok v -> 0 <= cap /\ v = replicate (Z.to_nat cap) 0.
Proof.
  unfold vector. destruct (cap <? 0) eqn:E; [done|].
  intros [= <-]. split; [|done]. now apply Z.ltb_ge.
Qed.

Lemma i_store s : i (store s) = i s.
Proof. unfold store. now destruct (_ && _). Qed.

Lemma quot_neg_small n d : d < n < 0 -> Z.quot n d = 0.
Proof.
  intros H. rewrite <- Z.quot_opp_opp by lia. apply Z.quot_small. lia.
Qed.

Lemma for_loop_test_fault {St : Type} (cond : St -> result bool)
    (body incr : St -> result St) s e :
  cond s = Err e -> for_loop cond body incr s = Err e.
Proof.
  intros Hc. apply (for_loop_turns _ _ _ 1); [|lia].
  simpl. unfold for_turn. now rewrite Hc.
Qed.

(** X7: with a negative step on [int] the loop body never runs in a call
    that returns: the test fails at once, and the vector returned is empty
    or, for equal bounds, one value-initialised element. (When the first
    test holds, the counter moves away from the bound and the call does
    not return.) *)
Theorem range_negative_step a b delta s :
  delta < 0 ->
  range_run Signed a b delta = Ok s ->
  index s = 0 /\ stray s = [] /\ (out s = [] \/ a = b /\ out s = [0]).
Proof.
  intros Hneg. unfold range_run.
  destruct (a <? b) eqn:Hab.
  - apply Z.ltb_lt in Hab. unfold range_ascending, range_ascending_by.
    destruct (sub Signed b a) as [d|] eqn:E1; [|done].
    apply value_in_signed in E1 as ->. cbn [mbind result_bind].
    destruct (add Signed (b - a) delta) as [n|] eqn:E2; [|done].
    apply value_in_signed in E2 as ->. cbn [mbind result_bind].
    destruct (div Signed (b - a + delta) delta) as [cap|] eqn:E3; [|done].
    apply div_signed in E3 as [_ ->]. cbn [mbind result_bind].
    destruct (vector _) as [v|] eqn:E4; [|done].
    apply vector_inv in E4 as [Hcap ->]. cbn [mbind result_bind].
    destruct (add Signed b delta) as [lim|e] eqn:E.
    2:{ rewrite (for_loop_test_fault _ _ _ _ e); [done|]. reflexivity. }
    apply value_in_signed in E as Hlim. subst lim.
    destruct (Z_le_gt_dec a (b + delta)) as [Hle|Hgt].
    + intros Hret. exfalso. revert Hret.
      apply (for_loop_never_returns _ _ _ (fun s => i s <= b + delta));
        [| |simpl; lia].
      * intros s0 Hs0. cbn.
        replace (i s0 <=? b + delta) with true; [done|].
        symmetry. now apply Z.leb_le.
      * intros s0 s1 Hs0. cbn [mbind result_bind mret result_ret].
        unfold step_up.
        destruct (add Signed (i (store s0)) delta) as [i'|] eqn:E'; [|done].
        apply value_in_signed in E' as ->. cbn [mbind result_bind].
        destruct (add Signed _ 1); [|done]. intros [= <-]. simpl.
        rewrite i_store. lia.
    + rewrite for_loop_stops_at_once.
      * intros [= <-]. simpl. rewrite quot_neg_small by lia. auto.
      * cbn. f_equal. apply Z.leb_gt. simpl. lia.
  - apply Z.ltb_ge in Hab. unfold range_descending, range_descending_by.
    destruct (sub Signed a b) as [d|] eqn:E1; [|done].
    apply value_in_signed in E1 as ->. cbn [mbind result_bind].
    destruct (add Signed (a - b) delta) as [n|] eqn:E2; [|done].
    apply value_in_signed in E2 as ->. cbn [mbind result_bind].
    destruct (div Signed (a - b + delta) delta) as [cap|] eqn:E3; [|done].
    apply div_signed in E3 as [_ ->]. cbn [mbind result_bind].
    destruct (vector _) as [v|] eqn:E4; [|done].
    apply vector_inv in E4 as [Hcap ->]. cbn [mbind result_bind].
    destruct (sub Signed b delta) as [lim|e] eqn:E.
    2:{ rewrite (for_loop_test_fault _ _ _ _ e); [done|]. reflexivity. }
    apply value_in_signed in E as Hlim. subst lim.
    destruct (Z_le_gt_dec (b - delta) a) as [Hle|Hgt].
    + intros Hret. exfalso. revert Hret.
      apply (for_loop_never_returns _ _ _ (fun s => b - delta <= i s));
        [| |simpl; lia].
      * intros s0 Hs0. cbn.
        replace (i s0 >=? b - delta) with true; [done|].
        symmetry. apply Z.geb_le. lia.
      * intros s0 s1 Hs0. cbn [mbind result_bind mret result_ret].
        unfold step_down.
        destruct (sub Signed (i (store s0)) delta) as [i'|] eqn:E'; [|done].
        apply value_in_signed in E' as ->. cbn [mbind result_bind].
        destruct (add Signed _ 1); [|done]. intros [= <-]. simpl.
        rewrite i_store. lia.
    + rewrite for_loop_stops_at_once.
      * intros [= <-]. simpl.
        destruct (decide (a = b)) as [->|Hne].
        -- rewrite Z.sub_diag, Z.add_0_l, Z.quot_same by lia. auto.
        -- rewrite quot_neg_small by lia. auto.
      * cbn. f_equal.
        rewrite Z.geb_leb. apply Z.leb_gt. simpl. lia.
Qed.

Lemma range_negative_step_witness :
  index (Fill 5 0 [0] []) = 0 /\ stray (Fill 5 0 [0] []) = [] /\
  (out (Fill 5 0 [0] []) = [] \/ 5 = 5 /\ out (Fill 5 0 [0] []) = [0]).
Proof.
  apply (range_negative_step 5 5 (-1) (Fill 5 0 [0] [])).
  - lia.
  - vm_compute. reflexivity.
Defined.

(** X8: for [unsigned int] bounds [a >= b] with [b < delta] the bound
    [b - delta] of the descending loop wraps around to a value above [a]:
    the body never runs and the vector returned holds
    [floor((a-b)/delta) + 1] zeros. *)
Theorem range_unsigned_below_step a b delta :
  representable Unsigned a -> representable Unsigned b ->
  representable Unsigned delta ->
  b <= a -> 0 < delta -> b < delta ->
  a - b + delta <= 4294967295 ->
  range Unsigned a b delta = Ok (replicate (count (a - b) delta) 0).
Proof.
  unfold representable; simpl. intros Ha Hb Hd Hab Hpos Hlt Hmax.
  destruct (div_bounds (a - b) delta) as [Hq0 Hq]; [lia|lia|].
  unfold range.
  replace (a <? b) with false by (symmetry; apply Z.ltb_ge; lia).
  unfold range_descending_by, sub, add, div.
  rewrite (value_in_representable Unsigned (a - b))
    by (unfold representable; simpl; lia).
  cbn [mbind result_bind].
  rewrite (value_in_representable Unsigned (a - b + delta))
    by (unfold representable; simpl; lia).
  cbn [mbind result_bind].
  replace (delta =? 0) with false by (symmetry; apply Z.eqb_neq; lia).
  rewrite quot_count by lia.
  rewrite (value_in_representable Unsigned ((a - b) / delta + 1))
    by (unfold representable; simpl; nia).
  cbn [mbind result_bind]. unfold vector.
  replace ((a - b) / delta + 1 <? 0) with false
    by (symmetry; apply Z.ltb_ge; lia).
  cbn [mbind result_bind].
  rewrite for_loop_stops_at_once; [reflexivity|].
  cbn. f_equal. rewrite Z.geb_leb. apply Z.leb_gt.
  replace (b - delta) with (b - delta + 4294967296 + (-1) * 4294967296) by lia.
  rewrite Z.mod_add by lia. rewrite Z.mod_small by lia. lia.
Qed.

Lemma range_unsigned_below_step_witness :
  range Unsigned 10 2 3 = Ok (replicate (count (10 - 2) 3) 0).
Proof.
  apply range_unsigned_below_step; unfold representable; simpl; lia.
Defined.

(** * Further properties of [sum] and [mult] *)

Lemma heads_fifos {R : Type} (ports : list nat) (m : gmap nat (list R)) vals m' :
  heads ports m = Some (vals, m') ->
  forall port, m' !! port = drop (count_occ Nat.eq_dec ports port) <$> m !! port.
Proof.
  revert m vals. induction ports as [|x ports IH]; intros m vals; simpl.
  - intros [= _ <-] port. now destruct (m !! port).
  - destruct (m !! x) as [[|val rest]|] eqn:Hx; try done.
    destruct (heads ports _) as [[vs m1]|] eqn:Hh; [|done].
    simpl. intros [= _ <-] port. rewrite (IH _ _ Hh port).
    destruct (Nat.eq_dec x port) as [->|Hne].
    + now rewrite lookup_insert_eq, Hx.
    + now rewrite lookup_insert_ne.
Qed.

(** X9: a returning call of [sum] or [mult] takes from each FIFO as many
    values as the port occurs among the arguments, from the front, and
    leaves every other FIFO as it was. *)
Theorem fold_takes_front {R : Type} `{Arithmetic R}
    (f : fold_op) (ports : list nat) (w : world R) r w' :
  fold_call f ports w = Ok (r, w') ->
  forall port,
    fifos w' !! port =
    drop (count_occ Nat.eq_dec ports port) <$> fifos w !! port.
Proof.
  rewrite fold_call_heads.
  destruct (heads ports (fifos w)) as [[vals m]|] eqn:Hh; [|done].
  intros Hr. assert (fifos w' = m) as ->.
  { destruct f;
      [destruct (fold_vals plus (cast 0) vals)
      |destruct (fold_vals times (cast 1) vals)];
      simpl in Hr; [|done| |done]; now injection Hr as _ <-. }
  exact (heads_fifos _ _ _ _ Hh).
Qed.

Lemma fold_takes_front_witness :
  let w : world (integer Signed) :=
    World {[ 2%nat := [5; 6; 7]; 7%nat := [8]; 4%nat := [1] ]} [] in
  exists r w', fold_call Mult [2; 7; 2]%nat w = Ok (r, w') /\
    forall port,
      fifos w' !! port =
      drop (count_occ Nat.eq_dec [2; 7; 2]%nat port) <$> fifos w !! port.
Proof.
  intros w.
  assert (exists r w', fold_call Mult [2; 7; 2]%nat w = Ok (r, w')) as (r & w' & E).
  { vm_compute. eauto. }
  exists r, w'. split; [exact E|].
  exact (fold_takes_front Mult [2; 7; 2]%nat w r w' E).
Defined.

(** Distinct ports whose FIFOs have [vals] at their fronts yield [vals]. *)
Lemma heads_fronts {R : Type} (ports : list nat) (vals : list R)
    (m : gmap nat (list R)) :
  NoDup ports ->
  Forall2 (fun port val => exists rest, m !! port = Some (val :: rest)) ports vals ->
  exists m', heads ports m = Some (vals, m').
Proof.
  intros Hnd Hall.
  destruct (heads_distinct ports m Hnd) as (vals' & m' & Hh & Hall').
  { intros port [j Hj]%list_elem_of_lookup.
    destruct (Forall2_lookup_l _ _ _ _ _ Hall Hj) as (val & _ & rest & Hp).
    eauto. }
  exists m'. rewrite Hh. do 2 f_equal.
  clear -Hall Hall'. revert vals' Hall'.
  induction Hall as [|port val ports vals [rest Hp] _ IH]; intros vals' Hall';
    inversion Hall' as [|? val' ? vals1 [rest' Hp'] Hrest]; subst; [done|].
  f_equal; [congruence|]. now apply IH.
Qed.

Lemma foldr_plus_unsigned (vals : list Z) :
  foldr (fun x y => (x + y) mod 4294967296) 0 vals =
  foldr Z.add 0 vals mod 4294967296.
Proof.
  induction vals as [|val vals IH]; simpl; [done|].
  now rewrite IH, Zplus_mod_idemp_r.
Qed.

Lemma foldr_times_unsigned (vals : list Z) :
  foldr (fun x y => (x * y) mod 4294967296) 1 vals =
  foldr Z.mul 1 vals mod 4294967296.
Proof.
  induction vals as [|val vals IH]; simpl; [done|].
  now rewrite IH, Zmult_mod_idemp_r.
Qed.

(** X11: for [unsigned int] and distinct ports whose FIFOs have [vals] at
    their fronts, [sum] returns the sum of [vals] modulo 2^32 and [mult]
    their product modulo 2^32. *)
Theorem fold_unsigned_value (ports : list nat) (w : world (integer Unsigned))
    (vals : list (integer Unsigned)) :
  NoDup ports ->
  Forall2 (fun port val => exists rest, fifos w !! port = Some (val :: rest))
          ports vals ->
  fst <$> sum ports w = Ok (foldr Z.add 0 vals mod 4294967296) /\
  fst <$> mult ports w = Ok (foldr Z.mul 1 vals mod 4294967296).
Proof.
  intros Hnd Hall.
  destruct (heads_fronts ports vals (fifos w) Hnd Hall) as [m' Hh].
  destruct (fold_is_right_fold ports w vals m' Hh) as [Hs Hm].
  split.
  - etrans; [exact Hs|]. rewrite fold_vals_plus_exact. f_equal.
    apply foldr_plus_unsigned.
  - etrans; [exact Hm|]. rewrite fold_vals_times_exact. f_equal.
    apply foldr_times_unsigned.
Qed.

Lemma fold_unsigned_value_witness :
  let w : world (integer Unsigned) :=
    World {[ 0%nat := [4294967295; 8]; 3%nat := [2]; 5%nat := [3] ]} [] in
  fst <$> sum [3; 0; 5]%nat w =
    Ok (foldr Z.add 0 [2; 4294967295; 3] mod 4294967296) /\
  fst <$> mult [3; 0; 5]%nat w =
    Ok (foldr Z.mul 1 [2; 4294967295; 3] mod 4294967296).
Proof.
  intros w. apply (fold_unsigned_value [3; 0; 5]%nat w [2; 4294967295; 3]).
  - apply (bool_decide_unpack _). vm_compute. exact I.
  - repeat constructor; eexists; vm_compute; reflexivity.
Defined.

Lemma fold_vals_add_signed_iff (vals : list Z) :
  (exists r, fold_vals (add Signed) 0 vals = Ok r) <->
  (forall k : nat, representable Signed (foldr Z.add 0 (drop k vals))).
Proof.
  induction vals as [|val vals IH]; simpl.
  - split; [|eauto]. intros _ k. rewrite drop_nil. simpl.
    unfold representable; simpl; lia.
  - split.
    + intros [r Hr]. destruct (fold_vals _ _ vals) as [rest|] eqn:E; [|done].
      pose proof (fold_vals_add_signed _ _ _ E) as ->. simpl in Hr.
      intros [|k]; simpl.
      * unfold add, value_in in Hr.
        destruct (fits Signed _) eqn:F; [|done]. now apply fits_representable.
      * apply IH. eauto.
    + intros Hall. destruct (proj2 IH) as [rest E].
      { intros k. apply (Hall (S k)). }
      rewrite E. simpl. pose proof (fold_vals_add_signed _ _ _ E) as ->.
      exists (val + foldr Z.add 0 vals).
      exact (value_in_representable Signed _ (Hall 0%nat)).
Qed.

Lemma fold_vals_mul_signed_iff (vals : list Z) :
  (exists r, fold_vals (mul Signed) 1 vals = Ok r) <->
  (forall k : nat, representable Signed (foldr Z.mul 1 (drop k vals))).
Proof.
  induction vals as [|val vals IH]; simpl.
  - split; [|eauto]. intros _ k. rewrite drop_nil. simpl.
    unfold representable; simpl; lia.
  - split.
    + intros [r Hr]. destruct (fold_vals _ _ vals) as [rest|] eqn:E; [|done].
      pose proof (fold_vals_mul_signed _ _ _ E) as ->. simpl in Hr.
      intros [|k]; simpl.
      * unfold mul, value_in in Hr.
        destruct (fits Signed _) eqn:F; [|done]. now apply fits_representable.
      * apply IH. eauto.
    + intros Hall. destruct (proj2 IH) as [rest E].
      { intros k. apply (Hall (S k)). }
      rewrite E. simpl. pose proof (fold_vals_mul_signed _ _ _ E) as ->.
      exists (val * foldr Z.mul 1 vals).
      exact (value_in_representable Signed _ (Hall 0%nat)).
Qed.

(** X12: for [int] and distinct ports whose FIFOs have [vals] at their
    fronts, [sum] returns exactly when every partial sum taken from the
    right end of [vals] fits in [int], and what it returns is the sum of
    [vals]. *)
Theorem sum_int_returns (ports : list nat) (w : world (integer Signed))
    (vals : list (integer Signed)) :
  NoDup ports ->
  Forall2 (fun port val => exists rest, fifos w !! port = Some (val :: rest))
          ports vals ->
  ((exists r w', sum ports w = Ok (r, w')) <->
   (forall k : nat, representable Signed (foldr Z.add 0 (drop k vals)))) /\
  (forall r w', sum ports w = Ok (r, w') -> r = foldr Z.add 0 vals).
Proof.
  intros Hnd Hall.
  destruct (heads_fronts ports vals (fifos w) Hnd Hall) as [m' Hh].
  unfold sum. rewrite sum_helper_heads, Hh.
  rewrite <- fold_vals_add_signed_iff. split; [split|].
  - intros (r & w' & Hr). destruct (fold_vals plus (cast 0) vals) eqn:E; [|done].
    eauto.
  - intros [r Hr]. change (fold_vals plus (cast 0) vals) with
      (fold_vals (add Signed) 0 vals). rewrite Hr. simpl. eauto.
  - intros r w'. destruct (fold_vals plus (cast 0) vals) as [x|] eqn:E; [|done].
    simpl. intros [= <- _]. now apply fold_vals_add_signed in E.
Qed.

Lemma sum_int_returns_witness :
  let w : world (integer Signed) :=
    World {[ 0%nat := [2147483647]; 1%nat := [-1]; 2%nat := [1] ]} [] in
  ((exists r w', sum [2; 1; 0]%nat w = Ok (r, w')) <->
   (forall k : nat,
      representable Signed (foldr Z.add 0 (drop k [1; -1; 2147483647])))) /\
  (forall r w', sum [2; 1; 0]%nat w = Ok (r, w') ->
     r = foldr Z.add 0 [1; -1; 2147483647]).
Proof.
  intros w. apply (sum_int_returns [2; 1; 0]%nat w [1; -1; 2147483647]).
  - apply (bool_decide_unpack _). vm_compute. exact I.
  - repeat constructor; eexists; vm_compute; reflexivity.
Defined.

(** X13: likewise [mult] over [int] returns exactly when every partial
    product taken from the right end of [vals] fits in [int], and what it
    returns is the product of [vals]. *)
Theorem mult_int_returns (ports : list nat) (w : world (integer Signed))
    (vals : list (integer Signed)) :
  NoDup ports ->
  Forall2 (fun port val => exists rest, fifos w !! port = Some (val :: rest))
          ports vals ->
  ((exists r w', mult ports w = Ok (r, w')) <->
   (forall k : nat, representable Signed (foldr Z.mul 1 (drop k vals)))) /\
  (forall r w', mult ports w = Ok (r, w') -> r = foldr Z.mul 1 vals).
Proof.
  intros Hnd Hall.
  destruct (heads_fronts ports vals (fifos w) Hnd Hall) as [m' Hh].
  unfold mult. rewrite mult_helper_heads, Hh.
  rewrite <- fold_vals_mul_signed_iff. split; [split|].
  - intros (r & w' & Hr). destruct (fold_vals times (cast 1) vals) eqn:E; [|done].
    eauto.
  - intros [r Hr]. change (fold_vals times (cast 1) vals) with
      (fold_vals (mul Signed) 1 vals). rewrite Hr. simpl. eauto.
  - intros r w'. destruct (fold_vals times (cast 1) vals) as [x|] eqn:E; [|done].
    simpl. intros [= <- _]. now apply fold_vals_mul_signed in E.
Qed.

Lemma mult_int_returns_witness :
  let w : world (integer Signed) :=
    World {[ 0%nat := [65536]; 1%nat := [0]; 2%nat := [65536] ]} [] in
  ((exists r w', mult [0; 2; 1]%nat w = Ok (r, w')) <->
   (forall k : nat,
      representable Signed (foldr Z.mul 1 (drop k [65536; 65536; 0])))) /\
  (forall r w', mult [0; 2; 1]%nat w = Ok (r, w') ->
     r = foldr Z.mul 1 [65536; 65536; 0]).
Proof.
  intros w. apply (mult_int_returns [0; 2; 1]%nat w [65536; 65536; 0]).
  - apply (bool_decide_unpack _). vm_compute. exact I.
  - repeat constructor; eexists; vm_compute; reflexivity.
Defined.

Lemma heads_app {R : Type} (ps qs : list nat) (m : gmap nat (list R)) :
  heads (ps ++ qs) m =
  '(v1, m1) ← heads ps m; '(v2, m2) ← heads qs m1; Some (v1 ++ v2, m2).
Proof.
  revert m. induction ps as [|p ps IH]; intros m; simpl.
  - now destruct (heads qs m) as [[v2 m2]|].
  - destruct (m !! p) as [[|val rest]|]; try done.
    rewrite IH. destruct (heads ps _) as [[v1 m1]|]; simpl; [|done].
    now destruct (heads qs m1) as [[v2 m2]|].
Qed.

Lemma exact_sum_unsigned (vals : list (integer Unsigned)) :
  foldr exact_plus (cast 0) vals = foldr Z.add 0 vals mod 4294967296.
Proof. exact (foldr_plus_unsigned vals). Qed.

Lemma exact_product_unsigned (vals : list (integer Unsigned)) :
  foldr exact_times (cast 1) vals = foldr Z.mul 1 vals mod 4294967296.
Proof. exact (foldr_times_unsigned vals). Qed.

Lemma foldr_add_app (v1 v2 : list Z) :
  foldr Z.add 0 (v1 ++ v2) = foldr Z.add 0 v1 + foldr Z.add 0 v2.
Proof. induction v1 as [|x v1 IH]; simpl; lia. Qed.

Lemma foldr_mul_app (v1 v2 : list Z) :
  foldr Z.mul 1 (v1 ++ v2) = foldr Z.mul 1 v1 * foldr Z.mul 1 v2.
Proof. induction v1 as [|x v1 IH]; simpl; [lia|]. rewrite IH. lia. Qed.

(** X14: for [unsigned int], [sum] over two packs put together is [sum]
    over the first, then [sum] over the second, with the two results
    added; [mult] likewise with the two results multiplied. *)
Theorem fold_unsigned_app (ps qs : list nat) (w : world (integer Unsigned)) :
  sum (ps ++ qs) w =
    ('(r1, w1) ← sum ps w; '(r2, w2) ← sum qs w1;
     r ← plus r1 r2; mret (r, w2)) /\
  mult (ps ++ qs) w =
    ('(r1, w1) ← mult ps w; '(r2, w2) ← mult qs w1;
     r ← times r1 r2; mret (r, w2)).
Proof.
  unfold sum, mult. split.
  - rewrite (sum_helper_heads (ps ++ qs)), (sum_helper_heads ps), heads_app.
    destruct (heads ps (fifos w)) as [[v1 m1]|];
      cbn [mbind option_bind result_bind]; [|done].
    rewrite (fold_vals_plus_exact _ v1).
    cbn [mbind result_bind mret result_ret].
    rewrite sum_helper_heads. cbn [fifos calls].
    destruct (heads qs m1) as [[v2 m2]|];
      cbn [mbind option_bind result_bind]; [|done].
    rewrite !fold_vals_plus_exact.
    cbn [mbind result_bind mret result_ret].
    rewrite plus_exact. cbn [mbind result_bind mret result_ret].
    rewrite !exact_sum_unsigned. rewrite foldr_add_app, <- app_assoc.
    do 2 f_equal. apply Zplus_mod.
  - rewrite (mult_helper_heads (ps ++ qs)), (mult_helper_heads ps), heads_app.
    destruct (heads ps (fifos w)) as [[v1 m1]|];
      cbn [mbind option_bind result_bind]; [|done].
    rewrite (fold_vals_times_exact _ v1).
    cbn [mbind result_bind mret result_ret].
    rewrite mult_helper_heads. cbn [fifos calls].
    destruct (heads qs m1) as [[v2 m2]|];
      cbn [mbind option_bind result_bind]; [|done].
    rewrite !fold_vals_times_exact.
    cbn [mbind result_bind mret result_ret].
    rewrite times_exact. cbn [mbind result_bind mret result_ret].
    rewrite !exact_product_unsigned. rewrite foldr_mul_app, <- app_assoc.
    do 2 f_equal. apply Zmult_mod.
Qed.

(** * [range] forwards and backwards, and the store past the end *)








(** X18: for [int], two calls of [sum] (or of [mult]) on permuted ports
    that both return, return the same value and leave the same FIFOs;
    one of them may overflow where the other does not. *)
Theorem fold_int_permuted (f : fold_op) (ports ports' : list nat)
    (w : world (integer Signed)) r w1 r' w1' :
  ports ≡ₚ ports' ->
  fold_call f ports w = Ok (r, w1) ->
  fold_call f ports' w = Ok (r', w1') ->
  r = r' /\ fifos w1 = fifos w1'.
Proof. apply fold_order_independent_int. Qed.

Lemma fold_int_permuted_witness :
  let w : world (integer Signed) :=
    World {[ 0%nat := [2147483647]; 1%nat := [-1]; 2%nat := [1] ]} [] in
  exists r w1 r' w1',
    fold_call Sum [2; 1; 0]%nat w = Ok (r, w1) /\
    fold_call Sum [0; 1; 2]%nat w = Ok (r', w1') /\
    r = r' /\ fifos w1 = fifos w1'.
Proof.
  intros w.
  assert (exists r w1, fold_call Sum [2; 1; 0]%nat w = Ok (r, w1)) as (r & w1 & E).
  { vm_compute. eauto. }
  assert (exists r' w1', fold_call Sum [0; 1; 2]%nat w = Ok (r', w1'))
    as (r' & w1' & E').
  { vm_compute. eauto. }
  exists r, w1, r', w1'. split; [exact E|]. split; [exact E'|].
  assert ([2; 1; 0]%nat ≡ₚ [0; 1; 2]%nat) as Hp.
  { apply (bool_decide_unpack _). vm_compute. exact I. }
  exact (fold_int_permuted Sum _ _ w r w1 r' w1' Hp E E').
Defined.
